(** * Closeness centrality: batch and incremental computation

    A shallow embedding of [networkx/algorithms/centrality/closeness.py]
    ([closeness_centrality] and [incremental_closeness_centrality]) and the
    properties its design document states about it.

    Python numbers are embedded as rationals [Q]: the integer hop counts
    exactly, floating-point values by the rational they approximate.
    Dictionaries are [gmap]s and sets are [gset]s, so that two dictionaries
    with the same items are equal. *)

From Stdlib Require Import QArith Qabs.
From stdpp Require Import gmap fin_maps fin_sets strings list.

Local Open Scope Q_scope.
Local Open Scope nat_scope.
Local Open Scope stdpp_scope.

#[local] Set Warnings "-clear-no-such-hyp".

(** ** Nodes, numbers and exceptions *)

Abbreviation node := nat (only parsing).

(** A hop count as a Python number. *)
Definition Qnat (n : nat) : Q := inject_Z (Z.of_nat n).

(** The exceptions that cross the two functions. *)
Inductive exn : Set :=
| NetworkXError           (* networkx.exception.NetworkXError *)
| NetworkXNotImplemented  (* raised by [not_implemented_for] *)
| NodeNotFound            (* raised by the shortest-path functions *)
| KeyError                (* a failed dictionary subscript *)
| ValueError              (* raised by the weighted search on contradictory paths *)
| TypeError.              (* an arithmetic operation on a value that is no number *)

Inductive result (A : Type) : Type :=
| Ok (a : A)
| Raise (e : exn).
Arguments Ok {A} a.
Arguments Raise {A} e.

#[global] Instance result_ret : MRet result := λ A a, Ok a.
#[global] Instance result_bind : MBind result := λ A B k r,
  match r with
  | Ok a => k a
  | Raise e => Raise e
  end.

(** A [for] loop whose body may raise. *)
Fixpoint rfold {A S} (body : S → A → result S) (s : S) (l : list A) : result S :=
  match l with
  | [] => Ok s
  | x :: l' => s' ← body s x; rfold body s' l'
  end.

(** Modelled from the spec: the value of an edge attribute, "a numeric
    weight" or, for the "malformed weight attributes" that make the
    oracle raise, a Python value that is no number, here a string. *)
Inductive attr : Type :=
| Num (q : Q)
| NotNum (s : string).

(** ** The graph collaborator *)

Module Graph.

(** Modelled from the spec: the graph storage, NetworkX's [Graph] and
    [DiGraph] classes, which [closeness.py] uses and does not define.  A
    graph is "a set of nodes and a set of edges (directed or undirected),
    optionally carrying a numeric weight per edge under a named
    attribute": [isDirected], [nodeSet] and the edges with their attribute
    dictionaries.  An undirected edge is stored under one orientation and
    read under both. *)
Record t : Type := mk {
  directed : bool;
  nodes : gset node;
  edges : gmap (node * node) (gmap string attr)
}.

(** Modelled from the spec: an edge with its "endpoints swapped". *)
Definition swap (e : node * node) : node * node := (e.2, e.1).

(** Modelled from the spec: the edge set of the graph, as the set of pairs
    [(a, b)] such that [b] is adjacent to [a]; both orientations of an
    undirected edge are in it. *)
Definition edge_set (G : t) : gset (node * node) :=
  if directed G then dom (edges G)
  else dom (edges G) ∪ set_map swap (dom (edges G)).

(** Modelled from the spec: whether the edge is in the edge set,
    [G.has_edge(a, b)]. *)
Definition has_edge (G : t) (a b : node) : bool :=
  bool_decide ((a, b) ∈ edge_set G).

(** Modelled from the spec: "adjacency iteration", [G.adj[a]]. *)
Definition adj (G : t) (a : node) : gset node :=
  set_map snd (filter (λ e, e.1 = a) (edge_set G)).

(** Modelled from the spec: [nodeCount(graph)], [len(G)]. *)
Definition len (G : t) : nat := size (nodes G).

(** Modelled from the spec: the edges of a graph join nodes of its node
    set.  NetworkX keeps this invariant between its node and adjacency
    dictionaries. *)
Definition wf (G : t) : Prop :=
  set_Forall (λ e, e.1 ∈ nodes G ∧ e.2 ∈ nodes G) (dom (edges G)).

#[global] Instance wf_dec (G : t) : Decision (wf G) :=
  set_Forall_dec (λ e, e.1 ∈ nodes G ∧ e.2 ∈ nodes G) (dom (edges G)).

(** Modelled from the spec: [addEdge(graph, u, v)], a "structural
    mutation primitive" whose outcome on a duplicate is left to "the
    collaborator's own contract".  That contract is NetworkX's
    [Graph.add_edge]: endpoints that are not yet nodes are added, and an
    edge that is already present is kept with its attributes, without any
    error. *)
Definition add_edge (G : t) (u v : node) : t :=
  {| directed := directed G;
     nodes := nodes G ∪ {[u; v]};
     edges := if has_edge G u v then edges G else <[(u, v) := ∅]> (edges G) |}.

(** Modelled from the spec: [removeEdge(graph, u, v)]; "[removeEdge] on a
    nonexistent edge" fails, with NetworkX's [NetworkXError], and leaves
    the graph as it was. *)
Definition remove_edge (G : t) (u v : node) : result t :=
  if has_edge G u v then
    Ok {| directed := directed G;
          nodes := nodes G;
          edges := if directed G then delete (u, v) (edges G)
                   else delete (v, u) (delete (u, v) (edges G)) |}
  else Raise NetworkXError.

(** Modelled from the spec: [reversedView(graph)], "a read-only view
    with every directed edge's endpoints swapped". *)
Definition reverse (G : t) : t :=
  {| directed := directed G;
     nodes := nodes G;
     edges := kmap swap (edges G) |}.

End Graph.

Abbreviation Graph := Graph.t.

(** ** The shortest-path collaborator *)

(** Modelled from the spec: the "unweighted BFS distance" search proceeds
    level by level.  In one round the nodes of [thislevel] that were not
    seen yet get the current [level], and their neighbours make the next
    level; the search ends with an empty level. *)
Definition bfs_found (seen : gmap node nat) (thislevel : gset node) : gset node :=
  filter (λ v, seen !! v = None) thislevel.

(** Modelled from the spec: the rounds of the search.  [fuel] bounds
    their number; [bfs_correct] shows that one more than the number of
    nodes is enough. *)
Fixpoint bfs_levels (G : Graph) (fuel level : nat)
    (seen : gmap node nat) (nextlevel : gset node) : gmap node nat :=
  match fuel with
  | O => seen
  | S fuel' =>
      if decide (nextlevel = ∅) then seen
      else
        let found := bfs_found seen nextlevel in
        bfs_levels G fuel' (S level)
          (gset_to_gmap level found ∪ seen)
          (set_bind (Graph.adj G) found)
  end.

(** Modelled from the spec: the hop count of every node reachable from
    [source]. *)
Definition bfs (G : Graph) (source : node) : gmap node nat :=
  bfs_levels G (S (Graph.len G)) 0 ∅ {[source]}.

(** Modelled from the spec: [reachableDistances(graph, source)] without a
    weight attribute, NetworkX's [single_source_shortest_path_length]: "a
    mapping from every reachable node to its distance from the source",
    by hop count; unreachable nodes are absent.  A source that is not a
    node of the graph raises [NodeNotFound]. *)
Definition single_source_shortest_path_length (G : Graph) (source : node)
    : result (gmap node Q) :=
  if decide (source ∈ Graph.nodes G) then Ok (Qnat <$> bfs G source)
  else Raise NodeNotFound.

(** Modelled from the spec: the attributes an edge carries, [G[a][b]]; an
    undirected edge is read under either orientation. *)
Definition edge_attributes (G : Graph) (a b : node) : option (gmap string attr) :=
  match Graph.edges G !! (a, b) with
  | Some data => Some data
  | None => if Graph.directed G then None else Graph.edges G !! (b, a)
  end.

(** [a < b] on Python numbers. *)
Definition Qltb (a b : Q) : bool := negb (Qle_bool b a).

(** Modelled from the spec: the weight of an edge is its "numeric edge
    attribute".  The spec counts an edge without the attribute among the
    errors; NetworkX's [_weight_function] reads [data.get(weight, 1)], so
    that such an edge weighs 1, and the model follows NetworkX. *)
Definition edge_weight (weight : string) (data : gmap string attr) : attr :=
  default (Num 1) (data !! weight).

(** Modelled from the spec: [dist[v] + cost].  The sum of a number and
    of a value that is no number raises Python's [TypeError]: the spec's
    [WeightAttributeError], "propagated from the shortest-path
    collaborator" for a weight that is "non-numeric on some edge". *)
Definition add_cost (d : Q) (cost : attr) : result Q :=
  match cost with
  | Num q => Ok (d + q)%Q
  | NotNum _ => Raise TypeError
  end.

(** Modelled from the spec: the "weighted single-source shortest path"
    search, NetworkX's [_dijkstra_multisource] with one source.  The
    fringe holds the entries [(distance, c, node)], [c] a counter that
    makes the entries distinct. *)
Definition entry : Type := Q * nat * node.

(** Modelled from the spec: the order of the entries in the heap, as
    Python compares tuples: by distance, and by counter for equal
    distances. *)
Definition entry_le (x y : entry) : bool :=
  match (x.1.1 ?= y.1.1)%Q with
  | Lt => true
  | Eq => x.1.2 <=? y.1.2
  | Gt => false
  end.

(** Modelled from the spec: [heappop(fringe)], the smallest entry and the
    fringe without it; [None] for the empty fringe. *)
Fixpoint heappop (fringe : list entry) : option (entry * list entry) :=
  match fringe with
  | [] => None
  | x :: fringe' =>
      match heappop fringe' with
      | None => Some (x, [])
      | Some (m, rest) =>
          if entry_le x m then Some (x, fringe') else Some (m, x :: rest)
      end
  end.

(** Modelled from the spec: what the search holds beside the final
    distances [dist]: the best distance [seen] for each node, the counter
    [c] and the [fringe]. *)
Record search : Type := mk_search {
  seen : gmap node Q;
  counter : nat;
  fringe : list entry
}.

(** Modelled from the spec:
    [seen[u] = vu_dist; push(fringe, (vu_dist, next(c), u))]. *)
Definition push_seen (vu_dist : Q) (u : node) (st : search) : search :=
  {| seen := <[u := vu_dist]> (seen st);
     counter := S (counter st);
     fringe := (vu_dist, counter st, u) :: fringe st |}.

(** Modelled from the spec: the body of the loop over the neighbours [u]
    of the node [v] that was just given its final distance [d].  The spec
    leaves the "behavior for negative weights ... to the collaborator":
    in NetworkX a neighbour with a final distance that the new path would
    lower raises [ValueError] ("Contradictory paths found: negative
    weights?"); a neighbour without final distance is pushed when the new
    path is the first or the best one seen for it. *)
Definition dijkstra_relax (weight : string) (G : Graph) (dist : gmap node Q)
    (v : node) (d : Q) (st : search) (u : node) : result search :=
  let cost := edge_weight weight (default ∅ (edge_attributes G v u)) in
  vu_dist ← add_cost d cost;
  match dist !! u with
  | Some du => if Qltb vu_dist du then Raise ValueError else Ok st
  | None =>
      match seen st !! u with
      | Some su => if Qltb vu_dist su then Ok (push_seen vu_dist u st) else Ok st
      | None => Ok (push_seen vu_dist u st)
      end
  end.

(** Modelled from the spec: the loop [while fringe].  The nearest entry
    is popped; a node that has its final distance already is skipped,
    another one gets the distance of the entry as its final distance and
    its neighbours are looked at.  [fuel] bounds the number of rounds;
    [dijkstra_loop_fuel] shows that the result does not depend on it once
    it exceeds the length of the fringe plus the number of edges that
    leave a node without final distance. *)
Fixpoint dijkstra_loop (fuel : nat) (weight : string) (G : Graph)
    (dist : gmap node Q) (st : search) : result (gmap node Q) :=
  match fuel with
  | O => Ok dist
  | S fuel' =>
      match heappop (fringe st) with
      | None => Ok dist
      | Some ((d, _, v), rest) =>
          let st := {| seen := seen st; counter := counter st; fringe := rest |} in
          match dist !! v with
          | Some _ => dijkstra_loop fuel' weight G dist st
          | None =>
              let dist := <[v := d]> dist in
              st ← rfold (dijkstra_relax weight G dist v d) st
                     (elements (Graph.adj G v));
              dijkstra_loop fuel' weight G dist st
          end
      end
  end.

(** Modelled from the spec: the weighted distances from [source].  The
    search starts with [seen = {source: 0}] and the fringe
    [[(0, 0, source)]]; by [dijkstra_fuel] its fuel is enough. *)
Definition dijkstra (weight : string) (G : Graph) (source : node)
    : result (gmap node Q) :=
  dijkstra_loop (2 + size (Graph.edge_set G)) weight G ∅
    {| seen := {[source := 0%Q]}; counter := 1; fringe := [(0%Q, 0, source)] |}.

(** Modelled from the spec: [reachableDistances(graph, source,
    weightAttribute)], NetworkX's [single_source_dijkstra_path_length]:
    "shortest path using that numeric edge attribute as weight
    (nonnegative; behavior for negative weights is undefined and left to
    the collaborator)".  A source that is not a node of the graph raises
    [NodeNotFound]. *)
Definition single_source_dijkstra_path_length (weight : string) (G : Graph)
    (source : node) : result (gmap node Q) :=
  if decide (source ∈ Graph.nodes G) then dijkstra weight G source
  else Raise NodeNotFound.

(** ** [closeness_centrality] *)

(** What a call returns: a single value when a node was asked for, a
    dictionary otherwise. *)
Inductive pyvalue : Type :=
| PyFloat (q : Q)
| PyDict (d : gmap node Q).

(** [sum(sp.values())] *)
Definition sum_values (sp : gmap node Q) : Q :=
  map_fold (λ _ d acc, (acc + d)%Q) 0%Q sp.

(** Line 106: for a directed graph the distances are taken in the
    reversed view. *)
Definition closeness_view (G : Graph) : Graph :=
  if Graph.directed G then Graph.reverse G else G.

(** Lines 121-130: one round of the loop over the nodes. *)
Definition closeness_step (path_length : Graph → node → result (gmap node Q))
    (G : Graph) (wf_improved : bool)
    (closeness_centrality : gmap node Q) (n : node) : result (gmap node Q) :=
  sp ← path_length G n;
  let totsp := sum_values sp in
  if Qltb 0 totsp && (1 <? Graph.len G) then
    let c := ((Qnat (size sp) - 1) / totsp)%Q in
    if wf_improved then
      let s := ((Qnat (size sp) - 1) / (Qnat (Graph.len G) - 1))%Q in
      Ok (<[n := (c * s)%Q]> closeness_centrality)
    else Ok (<[n := c]> closeness_centrality)
  else Ok (<[n := 0%Q]> closeness_centrality).

Definition closeness_centrality (G : Graph) (u : option node)
    (distance : option string) (wf_improved : bool) : result pyvalue :=
  let G := closeness_view G in
  let path_length :=
    match distance with
    | Some w => single_source_dijkstra_path_length w
    | None => single_source_shortest_path_length
    end in
  let nodes :=
    match u with
    | None => elements (Graph.nodes G)
    | Some u => [u]
    end in
  closeness_centrality ←
    rfold (closeness_step path_length G wf_improved) ∅ nodes;
  match u with
  | Some u =>
      match closeness_centrality !! u with
      | Some c => Ok (PyFloat c)
      | None => Raise KeyError
      end
  | None => Ok (PyDict closeness_centrality)
  end.

(** ** [incremental_closeness_centrality] *)

(** The function works on the caller's graph object ([G_prime] "just
    aliases" [G]): a computation takes the graph and gives back the graph
    it leaves behind, with a value or an exception. *)
Definition M (A : Type) : Type := Graph → Graph * result A.

#[global] Instance M_ret : MRet M := λ A a G, (G, Ok a).
#[global] Instance M_bind : MBind M := λ A B k m G,
  match m G with
  | (G', Ok a) => k a G'
  | (G', Raise e) => (G', Raise e)
  end.

Definition lift {A} (r : result A) : M A := λ G, (G, r).
Definition get_graph : M Graph := λ G, (G, Ok G).

(** [G.add_edge(u, v)], [G.remove_edge(u, v)] and [path_length(G, n)] on
    the shared graph. *)
Definition do_add_edge (u v : node) : M unit :=
  λ G, (Graph.add_edge G u v, Ok tt).

Definition do_remove_edge (u v : node) : M unit :=
  λ G, match Graph.remove_edge G u v with
       | Ok G' => (G', Ok tt)
       | Raise e => (G, Raise e)
       end.

Definition path_length (n : node) : M (gmap node Q) :=
  G ← get_graph; lift (single_source_shortest_path_length G n).

Fixpoint mfold {A S} (body : S → A → M S) (s : S) (l : list A) : M S :=
  match l with
  | [] => mret s
  | x :: l' => s' ← body s x; mfold body s' l'
  end.

(** Modelled from the spec: the decorator
    [@not_implemented_for('directed')] of [networkx.utils.decorators];
    "directed graphs are rejected up front", with NetworkX's
    [NetworkXNotImplemented], before the body runs. *)
Definition not_implemented_for_directed {A} (f : M A) : M A :=
  G ← get_graph;
  if Graph.directed G then lift (Raise NetworkXNotImplemented) else f.

(** Lines 208-214: the previous result must be keyed by the nodes. *)
Definition check_prev_cc (prev_cc : option (gmap node Q)) : M unit :=
  match prev_cc with
  | Some prev_cc =>
      G ← get_graph;
      let shared_items := dom prev_cc ∩ Graph.nodes G in
      let count_shared := size shared_items in
      if bool_decide (size prev_cc ≠ count_shared)
         || bool_decide (size (Graph.nodes G) ≠ count_shared)
      then lift (Raise NetworkXError)
      else mret tt
  | None => mret tt
  end.

(** Lines 223-234: the change is applied and the two endpoint distance
    maps are taken. *)
Definition measure_and_apply (u v : node) (insertion : bool)
    : M (gmap node Q * gmap node Q) :=
  if insertion then
    du ← path_length u;
    dv ← path_length v;
    do_add_edge u v;;
    mret (du, dv)
  else
    do_remove_edge u v;;
    du ← path_length u;
    dv ← path_length v;
    mret (du, dv).

(** The test of lines 244-245. *)
Definition unaffected (du dv : gmap node Q) (n : node) : bool :=
  match du !! n, dv !! n with
  | Some n_from_u, Some n_from_v => Qle_bool (Qabs (n_from_u - n_from_v)) 1
  | _, _ => false
  end.

(** Lines 241-257: one round of the loop over the nodes. *)
Definition incremental_step (prev_cc du dv : gmap node Q) (normalized : bool)
    (closeness_centrality : gmap node Q) (n : node) : M (gmap node Q) :=
  if unaffected du dv n then
    match prev_cc !! n with
    | Some c => mret (<[n := c]> closeness_centrality)
    | None => lift (Raise KeyError)
    end
  else
    sp ← path_length n;
    G_prime ← get_graph;
    let totsp := sum_values sp in
    if Qltb 0 totsp && (1 <? Graph.len G_prime) then
      let c := ((Qnat (size sp) - 1) / totsp)%Q in
      if normalized then
        let s := ((Qnat (size sp) - 1) / (Qnat (Graph.len G_prime) - 1))%Q in
        mret (<[n := (c * s)%Q]> closeness_centrality)
      else mret (<[n := c]> closeness_centrality)
    else mret (<[n := 0%Q]> closeness_centrality).

Definition incremental_closeness_centrality (edge : node * node)
    (prev_cc : option (gmap node Q)) (insertion normalized : bool) : M pyvalue :=
  not_implemented_for_directed (
    check_prev_cc prev_cc;;
    let '(u, v) := edge in
    '(du, dv) ← measure_and_apply u v insertion;
    match prev_cc with
    | None =>
        G_prime ← get_graph;
        lift (closeness_centrality G_prime None None true)
    | Some prev_cc =>
        G_prime ← get_graph;
        closeness_centrality ←
          mfold (incremental_step prev_cc du dv normalized) ∅
            (elements (Graph.nodes G_prime));
        (if insertion then do_remove_edge u v else do_add_edge u v);;
        mret (PyDict closeness_centrality)
    end).

(** ** The terms in which the properties are stated *)

(** The graph with the single-edge change applied. *)
Definition apply_change (G : Graph) (edge : node * node) (insertion : bool)
    : result Graph :=
  if insertion then Ok (Graph.add_edge G edge.1 edge.2)
  else Graph.remove_edge G edge.1 edge.2.

(** The value that lines 122-130 (and again lines 249-257) give a node
    whose distance map is [sp] in a graph of [N] nodes. *)
Definition closeness_value (sp : gmap node Q) (N : nat) (wf_improved : bool) : Q :=
  let totsp := sum_values sp in
  if Qltb 0 totsp && (1 <? N) then
    let c := ((Qnat (size sp) - 1) / totsp)%Q in
    if wf_improved then (c * ((Qnat (size sp) - 1) / (Qnat N - 1)))%Q else c
  else 0%Q.

(** The distance map the chosen oracle gives for a node of the graph
    ([∅] if it raises). *)
Definition distance_map (distance : option string) (G : Graph) (n : node)
    : gmap node Q :=
  match distance with
  | Some w =>
      match dijkstra w G n with
      | Ok sp => sp
      | Raise _ => ∅
      end
  | None => Qnat <$> bfs G n
  end.

(** The attribute [weight], where an edge has it, is a number that is not
    negative. *)
Definition nonneg_weight (weight : string) (data : gmap string attr) : bool :=
  match edge_weight weight data with
  | Num q => Qle_bool 0 q
  | NotNum _ => false
  end.

(** Every edge of the graph has such a weight under the attribute that
    [distance] names: the graphs for which the spec defines the weighted
    search.  Without [distance] no attribute is read. *)
Definition weights_ok (distance : option string) (G : Graph) : Prop :=
  match distance with
  | Some w => map_Forall (λ _ data, nonneg_weight w data = true) (Graph.edges G)
  | None => True
  end.

#[global] Instance weights_ok_dec distance G : Decision (weights_ok distance G).
Proof.
  destruct distance as [w|]; [|left; exact I].
  apply map_Forall_dec. intros e data. apply bool_eq_dec.
Defined.

(** The dictionary a loop over the nodes [l] builds when the round of [n]
    stores [val n]. *)
Definition fill (val : node → Q) (acc : gmap node Q) (l : list node) : gmap node Q :=
  foldl (λ cc n, <[n := val n]> cc) acc l.

(** The value the incremental loop stores for [n]. *)
Definition incremental_value (prev_cc du dv : gmap node Q) (normalized : bool)
    (G_prime : Graph) (n : node) : Q :=
  if unaffected du dv n then default 0%Q (prev_cc !! n)
  else closeness_value (Qnat <$> bfs G_prime n) (Graph.len G_prime) normalized.

(** The edges that leave a node without final distance in the weighted
    search. *)
Definition pending (G : Graph) (dist : gmap node Q) : gset (node * node) :=
  filter (λ e, e.1 ∉ dom dist) (Graph.edge_set G).

(** A node without any edge. *)
Definition isolated (G : Graph) (n : node) : Prop :=
  ∀ e, e ∈ dom (Graph.edges G) → e.1 ≠ n ∧ e.2 ≠ n.

(** A node that no edge points to. *)
Definition no_incoming (G : Graph) (n : node) : Prop :=
  ∀ e, e ∈ dom (Graph.edges G) → e.2 ≠ n.

(** The sum of the hop counts of a search result. *)
Definition sum_hops (m : gmap node nat) : nat :=
  map_fold (λ _ d acc, acc + d) 0 m.

(** ** Concrete graphs and dictionaries *)

(** An undirected graph without edge attributes. *)
Definition undirected_graph (ns : list node) (es : list (node * node)) : Graph :=
  Graph.mk false (list_to_set ns) (list_to_map ((λ e, (e, ∅)) <$> es)).

(** The path 1 - 2 - 3 - 4 - 5. *)
Definition path_graph_5 : Graph :=
  undirected_graph [1; 2; 3; 4; 5] [(1, 2); (2, 3); (3, 4); (4, 5)].

(** The path 1 - 2 - 3. *)
Definition path_graph_3 : Graph :=
  undirected_graph [1; 2; 3] [(1, 2); (2, 3)].

(** The directed graph 1 -> 2. *)
Definition directed_pair : Graph :=
  Graph.mk true {[1; 2]} {[(1, 2) := ∅]}.

(** Two nodes joined by an edge of weight one half. *)
Definition weighted_pair : Graph :=
  Graph.mk false {[1; 2]} {[(1, 2) := {["weight" := Num (1 # 2)]}]}.

(** The dictionary a call without [u] returns ([∅] if it raises). *)
Definition closeness_dict (G : Graph) (wf_improved : bool) : gmap node Q :=
  match closeness_centrality G None None wf_improved with
  | Ok (PyDict d) => d
  | _ => ∅
  end.

(** A dictionary keyed by the nodes of [path_graph_3] that is not its
    closeness centrality. *)
Definition zeros_3 : gmap node Q := {[1 := 0%Q; 2 := 0%Q; 3 := 0%Q]}.

(** A dictionary that lacks node 2. *)
Definition stale_2 : gmap node Q := {[1 := 0%Q]}.

(** ** Walks and distances *)

(** [walk G s t k]: [t] is reached from [s] along [k] adjacency steps. *)
Inductive walk (G : Graph) (s : node) : node → nat → Prop :=
| walk_nil : walk G s s 0
| walk_snoc t t' k :
    walk G s t k → t' ∈ Graph.adj G t → walk G s t' (S k).

(** [d] is the hop count from [s] to [t]: the length of a shortest walk. *)
Definition hop_distance (G : Graph) (s t : node) (d : nat) : Prop :=
  walk G s t d ∧ ∀ j, walk G s t j → d ≤ j.

(** What the search has established when it starts the round of [level]. *)
Record bfs_inv (G : Graph) (s : node) (level : nat)
    (seen : gmap node nat) (nextlevel : gset node) : Prop := {
  inv_seen : ∀ t d, seen !! t = Some d → d < level ∧ hop_distance G s t d;
  inv_below : ∀ t j, walk G s t j → j < level → is_Some (seen !! t);
  inv_front : ∀ t, t ∈ nextlevel → walk G s t level;
  inv_level : ∀ t, walk G s t level → is_Some (seen !! t) ∨ t ∈ nextlevel;
  inv_dom : dom seen ⊆ Graph.nodes G;
  inv_nodes : nextlevel ⊆ Graph.nodes G
}.

(** What the finished search returns. *)
Definition bfs_final (G : Graph) (s : node) (seen : gmap node nat) : Prop :=
  (∀ t d, seen !! t = Some d → hop_distance G s t d) ∧
  (∀ t j, walk G s t j → is_Some (seen !! t)).

(** ** The graph collaborator: adjacency *)

Lemma elem_of_adj G a b : b ∈ Graph.adj G a ↔ (a, b) ∈ Graph.edge_set G.
Proof.
  unfold Graph.adj. rewrite elem_of_map. split.
  - intros [[x y] [-> [Hx He]%elem_of_filter]]. simpl in *. by subst.
  - intros He. exists (a, b). split; [done|]. by apply elem_of_filter.
Qed.

Lemma elem_of_edge_set G a b :
  (a, b) ∈ Graph.edge_set G ↔
  (a, b) ∈ dom (Graph.edges G) ∨
  (Graph.directed G = false ∧ (b, a) ∈ dom (Graph.edges G)).
Proof.
  unfold Graph.edge_set. destruct (Graph.directed G).
  - split; [by left | by intros [?|[[=] _]]].
  - rewrite elem_of_union, elem_of_map. split.
    + intros [?|[[x y] [[= -> ->] ?]]]; eauto.
    + intros [?|[_ ?]]; [by left|]. right. by exists (b, a).
Qed.

Lemma edge_set_sym G a b :
  Graph.directed G = false →
  (a, b) ∈ Graph.edge_set G → (b, a) ∈ Graph.edge_set G.
Proof.
  intros Hu. rewrite !elem_of_edge_set.
  intros [?|[_ ?]]; [right; by split | by left].
Qed.

Lemma edge_set_nodes G a b :
  Graph.wf G → (a, b) ∈ Graph.edge_set G →
  a ∈ Graph.nodes G ∧ b ∈ Graph.nodes G.
Proof.
  intros Hwf [H|[_ H]]%elem_of_edge_set; apply Hwf in H; simpl in H; tauto.
Qed.

Lemma adj_nodes G a b :
  Graph.wf G → b ∈ Graph.adj G a → b ∈ Graph.nodes G.
Proof. intros Hwf ?%elem_of_adj. by eapply edge_set_nodes. Qed.

(** ** The level-by-level search computes hop counts *)

Section bfs_correct.
Variable G : Graph.
Variable s : node.
Hypothesis Hwf : Graph.wf G.
Hypothesis Hs : s ∈ Graph.nodes G.

Lemma bfs_inv_init : bfs_inv G s 0 ∅ {[s]}.
Proof.
  split.
  - intros t d. by rewrite lookup_empty.
  - intros t j _ ?. lia.
  - intros t ->%elem_of_singleton. constructor.
  - intros t Hw. inversion Hw; subst. right. set_solver.
  - set_solver.
  - set_solver.
Qed.

Lemma elem_of_bfs_found (seen : gmap node nat) (F : gset node) (t : node) :
  t ∈ bfs_found seen F ↔ seen !! t = None ∧ t ∈ F.
Proof. unfold bfs_found. by rewrite elem_of_filter. Qed.

(** Once a round finds nothing new, every reachable node was seen. *)
Lemma bfs_inv_closed level seen F :
  bfs_inv G s level seen F → bfs_found seen F = ∅ → bfs_final G s seen.
Proof.
  intros Hinv Hnone. split.
  - intros t d Htd. by apply (inv_seen _ _ _ _ _ Hinv).
  - assert (Hle : ∀ t j, walk G s t j → j ≤ level → is_Some (seen !! t)).
    { intros t j Hw Hj. destruct (decide (j < level)) as [?|?].
      - by eapply inv_below.
      - assert (j = level) as -> by lia.
        destruct (inv_level _ _ _ _ _ Hinv t Hw) as [?|HF]; [done|].
        destruct (seen !! t) eqn:Hst; [by eexists|].
        assert (Hin : t ∈ bfs_found seen F) by by apply elem_of_bfs_found.
        rewrite Hnone in Hin. by apply not_elem_of_empty in Hin. }
    intros t j Hw. induction Hw as [|t t' k Hw IH Hadj].
    + apply (Hle s 0); [constructor | lia].
    + destruct IH as [d Hd].
      destruct (inv_seen _ _ _ _ _ Hinv _ _ Hd) as [Hlt [Hwd _]].
      apply (Hle t' (S d)); [by econstructor | lia].
Qed.

Lemma lookup_bfs_round (level : nat) (seen : gmap node nat)
    (found : gset node) (t : node) (d : nat) :
  (gset_to_gmap level found ∪ seen) !! t = Some d ↔
  ((t ∈ found ∧ d = level) ∨ ((t ∉ found) ∧ seen !! t = Some d)).
Proof.
  rewrite lookup_union_Some_raw, lookup_gset_to_gmap_Some,
    lookup_gset_to_gmap_None.
  split; [intros [[? <-]|[? ?]] | intros [[? ->]|[? ?]]]; auto.
Qed.

Lemma bfs_inv_step level seen F :
  bfs_inv G s level seen F →
  bfs_inv G s (S level)
    (gset_to_gmap level (bfs_found seen F) ∪ seen)
    (set_bind (Graph.adj G) (bfs_found seen F)).
Proof.
  intros Hinv.
  assert (Hbelow : ∀ t j, walk G s t j → j < S level →
    is_Some ((gset_to_gmap level (bfs_found seen F) ∪ seen) !! t)).
  { intros t j Hw Hj.
    destruct (decide (t ∈ bfs_found seen F)) as [Hin|Hnin].
    { exists level. apply lookup_bfs_round. by left. }
    cut (is_Some (seen !! t)).
    { intros [d Hd]. exists d. apply lookup_bfs_round. by right. }
    destruct (decide (j < level)); [by eapply inv_below|].
    assert (j = level) as -> by lia.
    destruct (inv_level _ _ _ _ _ Hinv t Hw) as [?|HF]; [done|].
    destruct (seen !! t) eqn:Hst; [by eexists|].
    destruct Hnin. by apply elem_of_bfs_found. }
  split.
  - intros t d [[[Hnone HF]%elem_of_bfs_found ->]|[_ Hd]]%lookup_bfs_round.
    + split; [lia|]. split; [by eapply inv_front|].
      intros j Hj. destruct (decide (level ≤ j)); [done|].
      destruct (inv_below _ _ _ _ _ Hinv t j Hj) as [? ?]; [lia|congruence].
    + destruct (inv_seen _ _ _ _ _ Hinv _ _ Hd). split; [lia|done].
  - done.
  - intros t [w [[_ HF]%elem_of_bfs_found Hadj]]%elem_of_set_bind.
    econstructor; [|done]. by eapply inv_front.
  - intros t Hw. inversion Hw as [|w ? ? Hw' Hadj]; subst.
    destruct (decide (w ∈ bfs_found seen F)) as [Hin|Hnin].
    { right. apply elem_of_set_bind. eauto. }
    left. destruct (inv_level _ _ _ _ _ Hinv w Hw') as [[d Hd]|HF].
    + destruct (inv_seen _ _ _ _ _ Hinv _ _ Hd) as [Hlt [Hwd _]].
      apply (Hbelow t (S d)); [by econstructor | lia].
    + destruct (seen !! w) as [d|] eqn:Hd.
      * destruct (inv_seen _ _ _ _ _ Hinv _ _ Hd) as [Hlt [Hwd _]].
        apply (Hbelow t (S d)); [by econstructor | lia].
      * destruct Hnin. by apply elem_of_bfs_found.
  - rewrite dom_union_L, dom_gset_to_gmap.
    pose proof (inv_dom _ _ _ _ _ Hinv). pose proof (inv_nodes _ _ _ _ _ Hinv).
    intros t [[_ ?]%elem_of_bfs_found|?]%elem_of_union; set_solver.
  - intros t [w [_ Hadj]]%elem_of_set_bind. by eapply adj_nodes.
Qed.

Lemma bfs_round_size level seen F :
  bfs_found seen F ≠ ∅ →
  S (size seen) ≤ size (gset_to_gmap level (bfs_found seen F) ∪ seen).
Proof.
  intros Hne. rewrite <-!size_dom, dom_union_L, dom_gset_to_gmap.
  rewrite size_union.
  - assert (size (bfs_found seen F) ≠ 0); [|lia].
    apply size_non_empty_iff. by intros ?%leibniz_equiv.
  - intros t [Hnone _]%elem_of_bfs_found Hdom.
    apply elem_of_dom in Hdom as [? ?]. congruence.
Qed.

Lemma bfs_levels_done fuel level seen :
  bfs_levels G fuel level seen ∅ = seen.
Proof. destruct fuel; [done|]. simpl. by rewrite decide_True. Qed.

Lemma bfs_levels_final fuel level seen F :
  bfs_inv G s level seen F →
  Graph.len G < fuel + size seen →
  bfs_final G s (bfs_levels G fuel level seen F).
Proof.
  revert level seen F. induction fuel as [|fuel IH]; intros level seen F Hinv Hfuel.
  - pose proof (inv_dom _ _ _ _ _ Hinv) as Hdom.
    apply subseteq_size in Hdom. rewrite size_dom in Hdom.
    unfold Graph.len in Hfuel. lia.
  - simpl. destruct (decide (F = ∅)) as [->|HF].
    { eapply bfs_inv_closed; [done|]. unfold bfs_found. set_solver. }
    destruct (decide (bfs_found seen F = ∅)) as [Hnone|Hsome].
    + rewrite Hnone, gset_to_gmap_empty, map_empty_union.
      replace (set_bind (Graph.adj G) (∅ : gset nat)) with (∅ : gset nat)
        by (symmetry; apply leibniz_equiv; set_solver).
      rewrite bfs_levels_done. by eapply bfs_inv_closed.
    + apply IH; [by apply bfs_inv_step|].
      pose proof (bfs_round_size level seen F Hsome). lia.
Qed.

Theorem bfs_correct : bfs_final G s (bfs G s).
Proof.
  apply bfs_levels_final; [apply bfs_inv_init|].
  rewrite map_size_empty. lia.
Qed.

Lemma bfs_lookup_distance t d :
  bfs G s !! t = Some d ↔ hop_distance G s t d.
Proof.
  destruct bfs_correct as [Hsound Hcomplete]. split; [apply Hsound|].
  intros [Hw Hmin]. destruct (Hcomplete t d Hw) as [d' Hd'].
  destruct (Hsound t d' Hd') as [Hw' Hmin'].
  rewrite Hd'. f_equal. apply Nat.le_antisymm; auto.
Qed.

End bfs_correct.

(** ** Walks *)

Lemma walk_cons G s a t k :
  a ∈ Graph.adj G s → walk G a t k → walk G s t (S k).
Proof.
  intros Ha Hw. induction Hw as [|t t' k Hw IH Hadj].
  - apply (walk_snoc G s s a 0); [constructor | done].
  - by apply (walk_snoc G s t t' (S k)).
Qed.

Lemma walk_sym G s t k :
  Graph.directed G = false → walk G s t k → walk G t s k.
Proof.
  intros Hu Hw. induction Hw as [|t t' k Hw IH Hadj]; [constructor|].
  apply walk_cons with t; [|done].
  apply elem_of_adj, edge_set_sym, elem_of_adj; done.
Qed.

Lemma distance_sym G s t d :
  Graph.directed G = false → hop_distance G s t d → hop_distance G t s d.
Proof.
  intros Hu [Hw Hmin]. split; [by apply walk_sym|].
  intros j Hj. apply Hmin. by apply walk_sym.
Qed.

Lemma walk_mono G H s t k :
  Graph.edge_set G ⊆ Graph.edge_set H → walk G s t k → walk H s t k.
Proof.
  intros Hsub Hw. induction Hw as [|t t' k Hw IH Hadj]; [constructor|].
  econstructor; [done|]. apply elem_of_adj, Hsub, elem_of_adj. done.
Qed.

Lemma distance_zero G s t : hop_distance G s t 0 → t = s.
Proof. intros [Hw _]. by inversion Hw. Qed.

Lemma distance_self G s : hop_distance G s s 0.
Proof. split; [constructor | intros; lia]. Qed.

(** Two graphs with the same hop counts from [s] give the same search
    result. *)
Lemma bfs_ext G H s :
  Graph.wf G → Graph.wf H → s ∈ Graph.nodes G → s ∈ Graph.nodes H →
  (∀ t d, hop_distance G s t d ↔ hop_distance H s t d) →
  bfs G s = bfs H s.
Proof.
  intros HwfG HwfH HsG HsH Hiff. apply map_eq. intros t.
  apply option_eq. intros d.
  rewrite !bfs_lookup_distance by done. apply Hiff.
Qed.

(** ** One more edge between two nodes at nearly the same distance *)

(** The work-filtering argument: [H] is [G] with the edge between [u] and
    [v] added.  A node [n] whose hop counts to [u] and to [v] in [G]
    differ by at most one has the same hop count to every node in both
    graphs. *)
Section one_more_edge.
Variables G H : Graph.
Variables u v n : node.
Variables a b : nat.
Hypothesis Hsub : Graph.edge_set G ⊆ Graph.edge_set H.
Hypothesis Hnew : ∀ x y, (x, y) ∈ Graph.edge_set H →
  (x, y) ∈ Graph.edge_set G ∨ (x = u ∧ y = v) ∨ (x = v ∧ y = u).
Hypothesis Hu : hop_distance G n u a.
Hypothesis Hv : hop_distance G n v b.
Hypothesis Hab : a ≤ S b ∧ b ≤ S a.

Lemma walk_without_edge t k :
  walk H n t k → ∃ j, j ≤ k ∧ walk G n t j.
Proof.
  intros Hw. induction Hw as [|t t' k Hw IH Hadj].
  - exists 0. split; [lia | constructor].
  - destruct IH as (j & Hj & Hwj).
    apply elem_of_adj, Hnew in Hadj as [He|[[-> ->]|[-> ->]]].
    + exists (S j). split; [lia|]. econstructor; [done|]. by apply elem_of_adj.
    + exists b. destruct Hu as [_ Hmin], Hv as [Hwv _].
      specialize (Hmin j Hwj). split; [lia | done].
    + exists a. destruct Hv as [_ Hmin], Hu as [Hwu _].
      specialize (Hmin j Hwj). split; [lia | done].
Qed.

Lemma distance_without_edge t d : hop_distance G n t d ↔ hop_distance H n t d.
Proof.
  split; intros [Hw Hmin].
  - split; [by eapply walk_mono|].
    intros j (j' & Hj' & Hwj')%walk_without_edge.
    specialize (Hmin j' Hwj'). lia.
  - destruct (walk_without_edge t d Hw) as (j & Hj & Hwj).
    assert (d ≤ j) by (apply Hmin; by eapply walk_mono).
    assert (j = d) as -> by lia.
    split; [done|]. intros j' Hj'. apply Hmin. by eapply walk_mono.
Qed.
End one_more_edge.

(** ** The graph collaborator: adding and removing an edge *)

Lemma has_edge_true G a b :
  Graph.has_edge G a b = true ↔ (a, b) ∈ Graph.edge_set G.
Proof. unfold Graph.has_edge. by rewrite bool_decide_eq_true. Qed.

Lemma has_edge_false G a b :
  Graph.has_edge G a b = false ↔ (a, b) ∉ Graph.edge_set G.
Proof. unfold Graph.has_edge. by rewrite bool_decide_eq_false. Qed.

Lemma has_edge_nodes G a b :
  Graph.wf G → Graph.has_edge G a b = true →
  a ∈ Graph.nodes G ∧ b ∈ Graph.nodes G.
Proof. intros Hwf ?%has_edge_true. by apply edge_set_nodes. Qed.

Lemma add_edge_nodes G u v :
  u ∈ Graph.nodes G → v ∈ Graph.nodes G →
  Graph.nodes (Graph.add_edge G u v) = Graph.nodes G.
Proof. intros Hu Hv. simpl. apply set_eq. intros x. set_solver. Qed.

Lemma add_edge_wf G u v : Graph.wf G → Graph.wf (Graph.add_edge G u v).
Proof.
  intros Hwf [a b]. simpl. destruct (Graph.has_edge G u v).
  - intros Hab. apply Hwf in Hab. set_solver.
  - rewrite dom_insert_L. intros [Hab|Hab]%elem_of_union.
    + apply elem_of_singleton in Hab as [= -> ->]. set_solver.
    + apply Hwf in Hab. set_solver.
Qed.

Lemma elem_of_edge_set_add_edge G u v x y :
  Graph.directed G = false →
  (x, y) ∈ Graph.edge_set (Graph.add_edge G u v) ↔
  ((x, y) ∈ Graph.edge_set G ∨ (x = u ∧ y = v) ∨ (x = v ∧ y = u)).
Proof.
  intros Hu. rewrite (elem_of_edge_set (Graph.add_edge G u v)). simpl.
  destruct (Graph.has_edge G u v) eqn:Huv.
  - apply has_edge_true in Huv. rewrite <-elem_of_edge_set. split; [auto|].
    intros [?|[[-> ->]|[-> ->]]]; [done..|]. by apply edge_set_sym.
  - rewrite !dom_insert_L, !elem_of_union, !elem_of_singleton.
    rewrite (elem_of_edge_set G). split.
    + intros [[[= -> ->]|?]|[_ [[= -> ->]|?]]]; auto.
    + intros [[?|[_ ?]]|[[-> ->]|[-> ->]]]; auto.
Qed.

Lemma add_edge_edge_set_sub G u v :
  Graph.directed G = false →
  Graph.edge_set G ⊆ Graph.edge_set (Graph.add_edge G u v).
Proof. intros Hu [x y] ?. apply elem_of_edge_set_add_edge; auto. Qed.

Lemma add_edge_present G u v :
  Graph.has_edge G u v = true →
  Graph.edge_set (Graph.add_edge G u v) = Graph.edge_set G.
Proof. intros Huv. unfold Graph.edge_set. simpl. by rewrite Huv. Qed.

Section remove_edge.
Variables G G' : Graph.
Variables u v : node.
Hypothesis Hrm : Graph.remove_edge G u v = Ok G'.

Lemma remove_edge_has_edge : Graph.has_edge G u v = true.
Proof.
  unfold Graph.remove_edge in Hrm. by destruct (Graph.has_edge G u v).
Qed.

Lemma remove_edge_eq :
  G' = {| Graph.directed := Graph.directed G;
          Graph.nodes := Graph.nodes G;
          Graph.edges :=
            if Graph.directed G then delete (u, v) (Graph.edges G)
            else delete (v, u) (delete (u, v) (Graph.edges G)) |}.
Proof.
  unfold Graph.remove_edge in Hrm.
  destruct (Graph.has_edge G u v); by inversion Hrm.
Qed.

Lemma remove_edge_directed : Graph.directed G' = Graph.directed G.
Proof. by rewrite remove_edge_eq. Qed.

Lemma remove_edge_nodes : Graph.nodes G' = Graph.nodes G.
Proof. by rewrite remove_edge_eq. Qed.

Lemma remove_edge_len : Graph.len G' = Graph.len G.
Proof. unfold Graph.len. by rewrite remove_edge_nodes. Qed.

Lemma remove_edge_wf : Graph.wf G → Graph.wf G'.
Proof.
  intros Hwf [a b]. rewrite remove_edge_eq. simpl.
  destruct (Graph.directed G); rewrite ?dom_delete_L;
    intros Hab; apply (Hwf (a, b)); set_solver.
Qed.

Lemma elem_of_edge_set_remove_edge x y :
  Graph.directed G = false →
  (x, y) ∈ Graph.edge_set G' ↔
  ((x, y) ∈ Graph.edge_set G ∧ ¬ (x = u ∧ y = v) ∧ ¬ (x = v ∧ y = u)).
Proof.
  intros Hu. rewrite !elem_of_edge_set, remove_edge_eq. simpl. rewrite Hu.
  rewrite !dom_delete_L, !elem_of_difference, !elem_of_singleton.
  split.
  - intros [[[? Hne1] Hne2]|[_ [[? Hne1] Hne2]]];
      (split; [auto|]); split; intros [-> ->]; congruence.
  - intros [[?|[_ ?]] [Hne1 Hne2]]; [left|right; split; [done|]];
      (split; [split; [done|]|]); intros [= -> ->]; tauto.
Qed.

Lemma remove_edge_edge_set_sub :
  Graph.directed G = false → Graph.edge_set G' ⊆ Graph.edge_set G.
Proof. intros Hu [x y] ?%elem_of_edge_set_remove_edge; tauto. Qed.

Lemma remove_edge_gone :
  Graph.directed G = false → Graph.has_edge G' u v = false.
Proof.
  intros Hu. apply has_edge_false.
  rewrite elem_of_edge_set_remove_edge by done. tauto.
Qed.
End remove_edge.

Lemma remove_edge_Ok G u v :
  Graph.has_edge G u v = true → ∃ G', Graph.remove_edge G u v = Ok G'.
Proof. intros Huv. unfold Graph.remove_edge. rewrite Huv. eauto. Qed.

Lemma remove_edge_Raise G u v :
  Graph.has_edge G u v = false →
  Graph.remove_edge G u v = Raise NetworkXError.
Proof. intros Huv. unfold Graph.remove_edge. by rewrite Huv. Qed.

(** Adding an edge that was absent and removing it again gives back the
    graph itself. *)
Lemma remove_add_edge G u v :
  Graph.directed G = false →
  u ∈ Graph.nodes G → v ∈ Graph.nodes G →
  Graph.has_edge G u v = false →
  Graph.remove_edge (Graph.add_edge G u v) u v = Ok G.
Proof.
  intros Hd Hu Hv Huv.
  assert (Hin : (u, v) ∈ Graph.edge_set (Graph.add_edge G u v)).
  { apply elem_of_edge_set_add_edge; auto. }
  apply has_edge_true in Hin. unfold Graph.remove_edge. rewrite Hin.
  f_equal. destruct G as [d ns es]. simpl in *. subst d.
  unfold Graph.add_edge. simpl. rewrite Huv. simpl. f_equal.
  - apply set_eq. intros x. set_solver.
  - apply has_edge_false in Huv. rewrite elem_of_edge_set in Huv. simpl in Huv.
    rewrite delete_insert_eq.
    rewrite !delete_id; [done| |].
    + apply not_elem_of_dom. tauto.
    + rewrite delete_id; apply not_elem_of_dom; tauto.
Qed.

(** Removing an edge and adding it again gives back the edge set. *)
Lemma add_remove_edge_edge_set G G' u v :
  Graph.directed G = false →
  Graph.remove_edge G u v = Ok G' →
  Graph.edge_set (Graph.add_edge G' u v) = Graph.edge_set G.
Proof.
  intros Hd Hrm. apply set_eq. intros [x y].
  rewrite elem_of_edge_set_add_edge
    by (by rewrite (remove_edge_directed G G' u v)).
  rewrite (elem_of_edge_set_remove_edge G G' u v) by done.
  pose proof (remove_edge_has_edge G G' u v Hrm) as Huv%has_edge_true.
  pose proof (edge_set_sym G u v Hd Huv).
  destruct (decide (x = u ∧ y = v)) as [[-> ->]|?];
    [tauto|]. destruct (decide (x = v ∧ y = u)) as [[-> ->]|?]; tauto.
Qed.

(** ** The loops as dictionaries *)

Lemma lookup_fill val acc l k :
  fill val acc l !! k = if decide (k ∈ l) then Some (val k) else acc !! k.
Proof.
  unfold fill. revert acc. induction l as [|n l IH]; intros acc.
  - by destruct (decide (k ∈ [])) as [?%not_elem_of_nil|?].
  - cbn [foldl]. rewrite IH.
    destruct (decide (k ∈ l)) as [Hin|Hnin],
      (decide (k ∈ n :: l)) as [Hin'|Hnin']; try done.
    + destruct Hnin'. by right.
    + apply elem_of_cons in Hin' as [->|?]; [|done].
      by rewrite lookup_insert_eq.
    + rewrite lookup_insert_ne; [done|]. intros ->. apply Hnin'. left.
Qed.

Lemma lookup_fill_elements val (X : gset node) k :
  fill val ∅ (elements X) !! k = if decide (k ∈ X) then Some (val k) else None.
Proof.
  rewrite lookup_fill, lookup_empty.
  destruct (decide (k ∈ X)) as [Hin|Hnin].
  - rewrite decide_True; [done | by apply elem_of_elements].
  - rewrite decide_False; [done | by rewrite elem_of_elements].
Qed.

Lemma dom_fill_elements val (X : gset node) : dom (fill val ∅ (elements X)) = X.
Proof.
  apply set_eq. intros k. rewrite elem_of_dom, lookup_fill_elements.
  destruct (decide (k ∈ X)); split; try done; by intros [? ?].
Qed.

(** Two loops over the same nodes that store the same values build the
    same dictionary. *)
Lemma fill_ext val val' (X : gset node) :
  (∀ n, n ∈ X → val n = val' n) →
  fill val ∅ (elements X) = fill val' ∅ (elements X).
Proof.
  intros Hval. apply map_eq. intros k. rewrite !lookup_fill_elements.
  destruct (decide (k ∈ X)); [|done]. f_equal. by apply Hval.
Qed.

(** ** The weighted search *)

Lemma entry_le_Qle (x y : entry) : entry_le x y = true → (x.1.1 <= y.1.1)%Q.
Proof.
  unfold entry_le. destruct (x.1.1 ?= y.1.1)%Q eqn:Hc; [| |done]; intros _.
  - apply Qeq_alt in Hc. rewrite Hc. apply Qle_refl.
  - apply Qlt_alt in Hc. by apply Qlt_le_weak.
Qed.

Lemma entry_le_false_Qle (x y : entry) :
  entry_le x y = false → (y.1.1 <= x.1.1)%Q.
Proof.
  unfold entry_le. destruct (x.1.1 ?= y.1.1)%Q eqn:Hc; [|done|]; intros _.
  - apply Qeq_alt in Hc. rewrite Hc. apply Qle_refl.
  - apply Qgt_alt in Hc. by apply Qlt_le_weak.
Qed.

Lemma heappop_None (l : list entry) : heappop l = None → l = [].
Proof.
  destruct l as [|x l]; [done|]. simpl.
  destruct (heappop l) as [[m rest]|]; [|done]. by destruct (entry_le x m).
Qed.

(** The popped entry is one of the fringe, the rest is the fringe without
    it, and no entry of the rest is nearer. *)
Lemma heappop_Some (l : list entry) m rest :
  heappop l = Some (m, rest) →
  l ≡ₚ m :: rest ∧ ∀ x, x ∈ rest → (m.1.1 <= x.1.1)%Q.
Proof.
  revert m rest. induction l as [|x l IH]; intros m rest; [done|]. simpl.
  destruct (heappop l) as [[m' rest']|] eqn:Hpop.
  - destruct (IH m' rest' eq_refl) as [Hperm Hmin].
    destruct (entry_le x m') eqn:Hle; intros [= <- <-].
    + split; [done|]. intros y Hy. rewrite Hperm in Hy.
      apply entry_le_Qle in Hle.
      apply elem_of_cons in Hy as [->|Hy]; [done|].
      eapply Qle_trans; [done|]. by apply Hmin.
    + split; [by rewrite Hperm, Permutation_swap|].
      intros y [->|Hy]%elem_of_cons; [by apply entry_le_false_Qle|].
      by apply Hmin.
  - intros [= <- <-]. apply heappop_None in Hpop as ->.
    split; [done|]. by intros y ?%elem_of_nil.
Qed.

(** One neighbour: the fringe keeps its entries and gets at most one
    more, for that neighbour and at the distance of the new path. *)
Lemma dijkstra_relax_fringe weight G dist v d st u st' :
  dijkstra_relax weight G dist v d st u = Ok st' →
  fringe st' = fringe st ∨
  ∃ q c, edge_weight weight (default ∅ (edge_attributes G v u)) = Num q ∧
         fringe st' = ((d + q)%Q, c, u) :: fringe st.
Proof.
  unfold dijkstra_relax.
  destruct (edge_weight weight (default ∅ (edge_attributes G v u)))
    as [q|s]; [|done].
  simpl. destruct (dist !! u) as [du|].
  - destruct (Qltb (d + q) du); [done|]. intros [= <-]. by left.
  - destruct (seen st !! u) as [su|];
      [destruct (Qltb (d + q) su)|]; intros [= <-]; eauto.
Qed.

Lemma dijkstra_relax_all_fringe weight G dist v d l : ∀ st st',
  rfold (dijkstra_relax weight G dist v d) st l = Ok st' →
  length (fringe st') ≤ length (fringe st) + length l ∧
  ∀ x, x ∈ fringe st' →
    x ∈ fringe st ∨
    (x.2 ∈ l ∧ ∃ q, edge_weight weight (default ∅ (edge_attributes G v x.2))
                    = Num q ∧ x.1.1 = (d + q)%Q).
Proof.
  induction l as [|u l IH]; intros st st'; simpl.
  - intros [= <-]. split; [lia | auto].
  - destruct (dijkstra_relax weight G dist v d st u) as [st1|e] eqn:Hu;
      [|done].
    simpl. intros Hl. destruct (IH st1 st' Hl) as [Hlen Hin].
    destruct (dijkstra_relax_fringe _ _ _ _ _ _ _ _ Hu)
      as [Heq|(q & c & Hq & Heq)]; rewrite Heq in *; simpl in *.
    + split; [lia|]. intros x Hx. destruct (Hin x Hx) as [?|[? ?]]; [by left|].
      right. split; [by right | done].
    + split; [lia|]. intros x Hx.
      destruct (Hin x Hx) as [[->|?]%elem_of_cons|[? ?]].
      * right. simpl. split; [by left | eauto].
      * by left.
      * right. split; [by right | done].
Qed.

(** *** The rounds end *)

Lemma pending_insert G (dist : gmap node Q) v d :
  dist !! v = None →
  size (pending G (<[v := d]> dist)) + size (Graph.adj G v)
  ≤ size (pending G dist).
Proof.
  intros Hv.
  set (B := list_to_set (pair v <$> elements (Graph.adj G v))
            : gset (node * node)).
  assert (HB : size B = size (Graph.adj G v)).
  { unfold B. rewrite size_list_to_set.
    - by rewrite length_fmap.
    - apply NoDup_fmap; [by intros ?? [= ->] | apply NoDup_elements]. }
  rewrite <-HB, <-size_union.
  - apply subseteq_size. unfold pending, B. intros [a b].
    rewrite elem_of_union, !elem_of_filter, elem_of_list_to_set,
      list_elem_of_fmap, dom_insert_L. simpl.
    intros [[Ha Hab]|(u & [= -> ->] & Hu)].
    + split; [set_solver | done].
    + split; [by apply not_elem_of_dom|].
      by apply elem_of_adj, elem_of_elements.
  - unfold pending, B. intros [a b].
    rewrite elem_of_filter, elem_of_list_to_set, list_elem_of_fmap,
      dom_insert_L. simpl.
    intros [Ha _] (u & [= -> ->] & _). set_solver.
Qed.

(** The result of the loop does not depend on the fuel, once there is
    more of it than entries in the fringe and pending edges. *)
Lemma dijkstra_loop_fuel weight G fuel : ∀ fuel' dist st,
  length (fringe st) + size (pending G dist) < fuel →
  length (fringe st) + size (pending G dist) < fuel' →
  dijkstra_loop fuel weight G dist st = dijkstra_loop fuel' weight G dist st.
Proof.
  induction fuel as [|fuel IH]; intros fuel' dist st Hf Hf'; [lia|].
  destruct fuel' as [|fuel']; [lia|]. simpl.
  destruct (heappop (fringe st)) as [[[[d c] v] rest]|] eqn:Hpop; [|done].
  destruct (heappop_Some _ _ _ Hpop) as [Hperm _].
  apply Permutation_length in Hperm. simpl in Hperm.
  destruct (dist !! v) as [dv|] eqn:Hv.
  - apply IH; simpl; lia.
  - destruct (rfold _ _ _) as [st'|e] eqn:Hrelax; [|done]. simpl.
    destruct (dijkstra_relax_all_fringe _ _ _ _ _ _ _ _ Hrelax) as [Hlen _].
    simpl in Hlen.
    pose proof (pending_insert G dist v d Hv) as Hpend.
    change (length (elements (Graph.adj G v))) with (size (Graph.adj G v))
      in Hlen.
    apply IH; lia.
Qed.

(** The fuel of [dijkstra] is enough: more fuel gives the same result. *)
Lemma dijkstra_fuel weight G source k :
  dijkstra weight G source
  = dijkstra_loop (2 + size (Graph.edge_set G) + k) weight G ∅
      {| seen := {[source := 0%Q]}; counter := 1;
         fringe := [(0%Q, 0, source)] |}.
Proof.
  assert (size (pending G ∅) ≤ size (Graph.edge_set G)).
  { apply subseteq_size. unfold pending. intros e. rewrite elem_of_filter. tauto. }
  unfold dijkstra. apply dijkstra_loop_fuel; simpl; lia.
Qed.

(** *** The final distances are distances of nodes *)

Lemma dijkstra_loop_dom weight G fuel : ∀ dist st sp,
  Graph.wf G →
  dom dist ⊆ Graph.nodes G →
  (∀ x, x ∈ fringe st → x.2 ∈ Graph.nodes G) →
  dijkstra_loop fuel weight G dist st = Ok sp →
  dom sp ⊆ Graph.nodes G.
Proof.
  induction fuel as [|fuel IH]; intros dist st sp Hwf Hdist Hfringe; simpl.
  { by intros [= <-]. }
  destruct (heappop (fringe st)) as [[[[d c] v] rest]|] eqn:Hpop;
    [|by intros [= <-]].
  destruct (heappop_Some _ _ _ Hpop) as [Hperm _].
  assert (Hv : v ∈ Graph.nodes G).
  { apply (Hfringe (d, c, v)). rewrite Hperm. by left. }
  assert (Hrest : ∀ x, x ∈ rest → x.2 ∈ Graph.nodes G).
  { intros x Hx. apply Hfringe. rewrite Hperm. by right. }
  destruct (dist !! v) as [dv|] eqn:Hdv.
  - by apply IH.
  - destruct (rfold _ _ _) as [st'|e] eqn:Hrelax; [|done]. simpl.
    destruct (dijkstra_relax_all_fringe _ _ _ _ _ _ _ _ Hrelax) as [_ Hin].
    apply IH; [done| |].
    + rewrite dom_insert_L. set_solver.
    + intros x Hx. destruct (Hin x Hx) as [?|[Hadj _]]; [by apply Hrest|].
      apply elem_of_elements in Hadj.
      by apply (adj_nodes G v).
Qed.

Lemma dijkstra_dom weight G s sp :
  Graph.wf G → s ∈ Graph.nodes G →
  dijkstra weight G s = Ok sp → dom sp ⊆ Graph.nodes G.
Proof.
  intros Hwf Hs. apply dijkstra_loop_dom; [done|set_solver|].
  intros x ->%list_elem_of_singleton. done.
Qed.

(** *** Weights that are not negative *)

Lemma nonneg_weight_Num weight data :
  nonneg_weight weight data = true →
  ∃ q, edge_weight weight data = Num q ∧ (0 <= q)%Q.
Proof.
  unfold nonneg_weight. destruct (edge_weight weight data) as [q|s]; [|done].
  intros Hq%Qle_bool_iff. eauto.
Qed.

Lemma weights_ok_edge w G a b :
  weights_ok (Some w) G →
  ∃ q, edge_weight w (default ∅ (edge_attributes G a b)) = Num q ∧ (0 <= q)%Q.
Proof.
  intros Hok. apply nonneg_weight_Num. unfold edge_attributes.
  destruct (Graph.edges G !! (a, b)) as [data|] eqn:Hab.
  { by apply (Hok (a, b)). }
  destruct (Graph.directed G); [done|].
  destruct (Graph.edges G !! (b, a)) as [data|] eqn:Hba; [|done].
  by apply (Hok (b, a)).
Qed.

(** With such weights a neighbour is never found nearer than its final
    distance: no round raises, and the fringe holds no entry nearer than
    the node that was settled. *)
Lemma dijkstra_relax_all_Ok w G (dist : gmap node Q) v d l : ∀ st,
  weights_ok (Some w) G →
  (∀ u du, dist !! u = Some du → (du <= d)%Q) →
  (∀ x, x ∈ fringe st → (d <= x.1.1)%Q) →
  ∃ st', rfold (dijkstra_relax w G dist v d) st l = Ok st' ∧
         ∀ x, x ∈ fringe st' → (d <= x.1.1)%Q.
Proof.
  intros st Hok Hdist. revert st.
  induction l as [|u l IH]; intros st Hst; simpl; [eauto|].
  destruct (weights_ok_edge w G v u Hok) as (q & Hq & Hq0).
  assert (Hdq : (d <= d + q)%Q).
  { rewrite <-(Qplus_0_r d) at 1. by apply Qplus_le_r. }
  assert (∃ st1, dijkstra_relax w G dist v d st u = Ok st1 ∧
                 ∀ x, x ∈ fringe st1 → (d <= x.1.1)%Q) as (st1 & -> & Hst1).
  { unfold dijkstra_relax. rewrite Hq. simpl.
    assert (Hpush : ∀ x, x ∈ fringe (push_seen (d + q) u st) → (d <= x.1.1)%Q).
    { intros x [->|Hx]%elem_of_cons; [done | by apply Hst]. }
    destruct (dist !! u) as [du|] eqn:Hu.
    - assert (Qltb (d + q) du = false) as ->; [|eauto].
      unfold Qltb. apply negb_false_iff, Qle_bool_iff.
      eapply Qle_trans; [by apply (Hdist u)|done].
    - destruct (seen st !! u) as [su|]; [destruct (Qltb (d + q) su)|]; eauto. }
  simpl. by apply IH.
Qed.

Lemma dijkstra_loop_Ok w G fuel : ∀ dist st,
  weights_ok (Some w) G →
  (∀ x, x ∈ fringe st → ∀ u du, dist !! u = Some du → (du <= x.1.1)%Q) →
  ∃ sp, dijkstra_loop fuel w G dist st = Ok sp.
Proof.
  induction fuel as [|fuel IH]; intros dist st Hok Hinv; simpl; [eauto|].
  destruct (heappop (fringe st)) as [[[[d c] v] rest]|] eqn:Hpop; [|eauto].
  destruct (heappop_Some _ _ _ Hpop) as [Hperm Hmin]. simpl in Hmin.
  assert (Hd : ∀ u du, dist !! u = Some du → (du <= d)%Q).
  { intros u du. apply (Hinv (d, c, v)). rewrite Hperm. by left. }
  destruct (dist !! v) as [dv|] eqn:Hdv.
  - apply IH; [done|]. simpl. intros x Hx. apply Hinv. rewrite Hperm. by right.
  - assert (Hd' : ∀ u du, <[v := d]> dist !! u = Some du → (du <= d)%Q).
    { intros u du. destruct (decide (u = v)) as [->|Hne].
      - rewrite lookup_insert_eq. intros [= <-]. apply Qle_refl.
      - rewrite lookup_insert_ne by done. apply Hd. }
    destruct (dijkstra_relax_all_Ok w G (<[v := d]> dist) v d
                (elements (Graph.adj G v))
                {| seen := seen st; counter := counter st; fringe := rest |}
                Hok Hd' Hmin) as (st' & -> & Hst').
    simpl. apply IH; [done|]. intros x Hx u du Hu.
    eapply Qle_trans; [by apply (Hd' u) | by apply Hst'].
Qed.

(** On a graph whose weights are not negative the weighted search
    returns. *)
Lemma dijkstra_Ok w G s :
  weights_ok (Some w) G → ∃ sp, dijkstra w G s = Ok sp.
Proof.
  intros Hok. apply dijkstra_loop_Ok; [done|].
  intros x _ u du. by rewrite lookup_empty.
Qed.

(** From a node without neighbour the search reads no weight. *)
Lemma dijkstra_no_neighbour w G n :
  Graph.adj G n = ∅ → dijkstra w G n = Ok {[n := 0%Q]}.
Proof.
  intros Hadj. unfold dijkstra. simpl. rewrite Hadj, elements_empty. simpl.
  done.
Qed.

(** ** [closeness_centrality] as a dictionary *)

Lemma closeness_step_value pl G wf_improved cc n sp :
  pl G n = Ok sp →
  closeness_step pl G wf_improved cc n
  = Ok (<[n := closeness_value sp (Graph.len G) wf_improved]> cc).
Proof.
  intros Hsp. unfold closeness_step, closeness_value. rewrite Hsp. simpl.
  destruct (Qltb 0 (sum_values sp) && (1 <? Graph.len G)); [|done].
  by destruct wf_improved.
Qed.

Lemma closeness_loop pl G wf_improved f l acc :
  (∀ n, n ∈ l → pl G n = Ok (f n)) →
  rfold (closeness_step pl G wf_improved) acc l
  = Ok (fill (λ n, closeness_value (f n) (Graph.len G) wf_improved) acc l).
Proof.
  revert acc. induction l as [|n l IH]; intros acc Hpl; [done|].
  simpl. rewrite (closeness_step_value pl G wf_improved acc n (f n))
    by (apply Hpl; left).
  simpl. apply IH. intros k Hk. apply Hpl. by right.
Qed.

Lemma closeness_view_nodes G : Graph.nodes (closeness_view G) = Graph.nodes G.
Proof. unfold closeness_view. by destruct (Graph.directed G). Qed.

Lemma closeness_view_len G : Graph.len (closeness_view G) = Graph.len G.
Proof. unfold Graph.len. by rewrite closeness_view_nodes. Qed.

Lemma closeness_view_undirected G :
  Graph.directed G = false → closeness_view G = G.
Proof. intros Hd. unfold closeness_view. by rewrite Hd. Qed.

Lemma weights_ok_view distance G :
  weights_ok distance G → weights_ok distance (closeness_view G).
Proof.
  unfold closeness_view. destruct (Graph.directed G); [|done].
  destruct distance as [w|]; [|done]. simpl.
  intros Hok e data [e' [-> He']]%lookup_kmap_Some; [|apply _].
  by apply (Hok e').
Qed.

(** The chosen oracle returns its distance map for a node of a graph
    whose weights are not negative, and for a node without neighbour. *)
Lemma oracle_distance_map distance G n :
  n ∈ Graph.nodes G →
  weights_ok distance G ∨ Graph.adj G n = ∅ →
  match distance with
  | Some w => single_source_dijkstra_path_length w
  | None => single_source_shortest_path_length
  end G n = Ok (distance_map distance G n).
Proof.
  intros Hn Hok. destruct distance as [w|]; simpl;
    unfold single_source_dijkstra_path_length,
      single_source_shortest_path_length; rewrite decide_True by done;
    [|done].
  destruct Hok as [Hok|Hadj].
  - by destruct (dijkstra_Ok w G n Hok) as [sp ->].
  - by rewrite dijkstra_no_neighbour.
Qed.

(** The dictionary of a call without [u], on a graph whose weights are
    not negative. *)
Lemma closeness_centrality_dict_weights G distance wf_improved :
  weights_ok distance G →
  closeness_centrality G None distance wf_improved
  = Ok (PyDict (fill
      (λ n, closeness_value (distance_map distance (closeness_view G) n)
              (Graph.len G) wf_improved)
      ∅ (elements (Graph.nodes G)))).
Proof.
  intros Hok. unfold closeness_centrality.
  rewrite (closeness_loop _ _ _ (distance_map distance (closeness_view G))).
  - simpl. by rewrite closeness_view_len, closeness_view_nodes.
  - intros n Hn%elem_of_elements. apply oracle_distance_map; [done|].
    left. by apply weights_ok_view.
Qed.

(** The dictionary of a call without [u] and without [distance]. *)
Lemma closeness_centrality_dict G wf_improved :
  closeness_centrality G None None wf_improved
  = Ok (PyDict (fill
      (λ n, closeness_value (distance_map None (closeness_view G) n)
              (Graph.len G) wf_improved)
      ∅ (elements (Graph.nodes G)))).
Proof. by apply closeness_centrality_dict_weights. Qed.

(** The value of a call with [u] for which the oracle returns. *)
Lemma closeness_centrality_node_returns G u distance wf_improved sp :
  match distance with
  | Some w => single_source_dijkstra_path_length w
  | None => single_source_shortest_path_length
  end (closeness_view G) u = Ok sp →
  closeness_centrality G (Some u) distance wf_improved
  = Ok (PyFloat (closeness_value sp (Graph.len G) wf_improved)).
Proof.
  intros Hsp. unfold closeness_centrality.
  rewrite (closeness_loop _ _ _ (λ _, sp)).
  - simpl. by rewrite lookup_insert_eq, closeness_view_len.
  - by intros n ->%list_elem_of_singleton.
Qed.

(** The value of a call with [u]. *)
Lemma closeness_centrality_node_weights G u distance wf_improved :
  u ∈ Graph.nodes G →
  weights_ok distance G ∨ Graph.adj (closeness_view G) u = ∅ →
  closeness_centrality G (Some u) distance wf_improved
  = Ok (PyFloat (closeness_value (distance_map distance (closeness_view G) u)
                   (Graph.len G) wf_improved)).
Proof.
  intros Hu Hok. unfold closeness_centrality.
  rewrite (closeness_loop _ _ _ (distance_map distance (closeness_view G))).
  - simpl. by rewrite lookup_insert_eq, closeness_view_len.
  - intros n ->%list_elem_of_singleton.
    apply oracle_distance_map; [by rewrite closeness_view_nodes|].
    destruct Hok; [left; by apply weights_ok_view | by right].
Qed.

(** The value of a call with [u] and without [distance]. *)
Lemma closeness_centrality_node G u wf_improved :
  u ∈ Graph.nodes G →
  closeness_centrality G (Some u) None wf_improved
  = Ok (PyFloat (closeness_value (distance_map None (closeness_view G) u)
                   (Graph.len G) wf_improved)).
Proof. intros Hu. apply closeness_centrality_node_weights; [done | by left]. Qed.

Lemma closeness_centrality_node_missing G u distance wf_improved :
  u ∉ Graph.nodes G →
  closeness_centrality G (Some u) distance wf_improved = Raise NodeNotFound.
Proof.
  intros Hu. unfold closeness_centrality. simpl. unfold closeness_step.
  destruct distance as [w|]; simpl;
    unfold single_source_dijkstra_path_length,
      single_source_shortest_path_length;
    by rewrite decide_False by (by rewrite closeness_view_nodes).
Qed.

(** What the chosen oracle returns is the distance map. *)
Lemma oracle_returned distance G n sp :
  match distance with
  | Some w => single_source_dijkstra_path_length w
  | None => single_source_shortest_path_length
  end G n = Ok sp →
  n ∈ Graph.nodes G ∧ sp = distance_map distance G n.
Proof.
  destruct distance as [w|]; simpl;
    unfold single_source_dijkstra_path_length,
      single_source_shortest_path_length;
    destruct (decide (n ∈ Graph.nodes G)); try done.
  - intros ->. done.
  - by intros [= <-].
Qed.

(** A call with [u] that returns gives the closeness value of the
    distance map of [u]. *)
Lemma closeness_centrality_node_returned G u distance wf_improved c :
  closeness_centrality G (Some u) distance wf_improved = Ok (PyFloat c) →
  u ∈ Graph.nodes G ∧
  c = closeness_value (distance_map distance (closeness_view G) u)
        (Graph.len G) wf_improved.
Proof.
  unfold closeness_centrality. simpl.
  destruct (match distance with
            | Some w => single_source_dijkstra_path_length w
            | None => single_source_shortest_path_length
            end (closeness_view G) u) as [sp|e] eqn:Horacle.
  - rewrite (closeness_step_value _ _ _ _ _ sp Horacle). simpl.
    rewrite lookup_insert_eq. intros [= <-].
    destruct (oracle_returned _ _ _ _ Horacle) as [Hu ->].
    by rewrite closeness_view_nodes, closeness_view_len in *.
  - unfold closeness_step. by rewrite Horacle.
Qed.

(** A call without [u] that returns gives a dictionary keyed by the
    nodes. *)
Lemma closeness_loop_dom pl G wf_improved l : ∀ acc m,
  rfold (closeness_step pl G wf_improved) acc l = Ok m →
  dom m = dom acc ∪ list_to_set l.
Proof.
  induction l as [|n l IH]; intros acc m; simpl.
  { intros [= <-]. set_solver. }
  destruct (closeness_step pl G wf_improved acc n) as [acc'|e] eqn:Hstep;
    simpl; [|done].
  intros Hm%IH. rewrite Hm.
  assert (dom acc' = {[n]} ∪ dom acc) as ->; [|set_solver].
  unfold closeness_step in Hstep.
  destruct (pl G n) as [sp|e]; simpl in Hstep; [|done].
  destruct (Qltb 0 (sum_values sp) && (1 <? Graph.len G));
    [destruct wf_improved|]; injection Hstep as <-; by rewrite dom_insert_L.
Qed.

Lemma closeness_centrality_dict_returned G distance wf_improved r :
  closeness_centrality G None distance wf_improved = Ok r →
  ∃ m, r = PyDict m ∧ dom m = Graph.nodes G.
Proof.
  unfold closeness_centrality.
  destruct (rfold _ _ _) as [m|e] eqn:Hloop; [|done]. simpl.
  intros [= <-]. exists m. split; [done|].
  rewrite (closeness_loop_dom _ _ _ _ _ _ Hloop), dom_empty_L,
    closeness_view_nodes.
  apply set_eq. intros k. rewrite elem_of_union, elem_of_list_to_set,
    elem_of_elements. set_solver.
Qed.

(** ** [incremental_closeness_centrality], phase by phase *)

Lemma path_length_node n G :
  n ∈ Graph.nodes G → path_length n G = (G, Ok (Qnat <$> bfs G n)).
Proof.
  intros Hn. unfold path_length, get_graph, lift, mbind, M_bind.
  unfold single_source_shortest_path_length. by rewrite decide_True.
Qed.

Lemma path_length_missing n G :
  n ∉ Graph.nodes G → path_length n G = (G, Raise NodeNotFound).
Proof.
  intros Hn. unfold path_length, get_graph, lift, mbind, M_bind.
  unfold single_source_shortest_path_length. by rewrite decide_False.
Qed.

Lemma check_prev_cc_keys prev_cc G :
  dom prev_cc = Graph.nodes G → check_prev_cc (Some prev_cc) G = (G, Ok tt).
Proof.
  intros Hdom. unfold check_prev_cc, get_graph, mbind, M_bind.
  rewrite <-Hdom, (leibniz_equiv _ _ (intersection_idemp (dom prev_cc))).
  rewrite size_dom, !bool_decide_eq_false_2 by (intros Hne; by apply Hne).
  done.
Qed.

Lemma check_prev_cc_stale prev_cc G :
  dom prev_cc ≠ Graph.nodes G →
  check_prev_cc (Some prev_cc) G = (G, Raise NetworkXError).
Proof.
  intros Hdom. unfold check_prev_cc, get_graph, mbind, M_bind, lift.
  destruct (bool_decide (size prev_cc ≠ size (dom prev_cc ∩ Graph.nodes G)))
    eqn:H1; [done|].
  destruct (bool_decide
    (size (Graph.nodes G) ≠ size (dom prev_cc ∩ Graph.nodes G)))
    eqn:H2; [done|].
  apply bool_decide_eq_false in H1, H2. destruct Hdom.
  assert (E1 : dom prev_cc ∩ Graph.nodes G = dom prev_cc).
  { apply set_subseteq_size_eq; [apply intersection_subseteq_l|].
    rewrite size_dom. lia. }
  assert (E2 : dom prev_cc ∩ Graph.nodes G = Graph.nodes G).
  { apply set_subseteq_size_eq; [apply intersection_subseteq_r|]. lia. }
  congruence.
Qed.

Lemma measure_insertion u v G :
  u ∈ Graph.nodes G → v ∈ Graph.nodes G →
  measure_and_apply u v true G
  = (Graph.add_edge G u v, Ok (Qnat <$> bfs G u, Qnat <$> bfs G v)).
Proof.
  intros Hu Hv. unfold measure_and_apply, mbind, M_bind.
  by rewrite (path_length_node u), (path_length_node v).
Qed.

Lemma measure_insertion_missing u v G :
  u ∉ Graph.nodes G ∨ v ∉ Graph.nodes G →
  measure_and_apply u v true G = (G, Raise NodeNotFound).
Proof.
  intros Huv. unfold measure_and_apply, mbind, M_bind.
  destruct (decide (u ∈ Graph.nodes G)) as [Hu|Hu].
  - rewrite (path_length_node u) by done.
    destruct Huv as [?|Hv]; [done|]. by rewrite (path_length_missing v).
  - by rewrite (path_length_missing u).
Qed.

Lemma measure_deletion u v G G' :
  Graph.wf G → Graph.remove_edge G u v = Ok G' →
  measure_and_apply u v false G
  = (G', Ok (Qnat <$> bfs G' u, Qnat <$> bfs G' v)).
Proof.
  intros Hwf Hrm. unfold measure_and_apply, mbind, M_bind, do_remove_edge.
  rewrite Hrm.
  destruct (has_edge_nodes G u v Hwf (remove_edge_has_edge G G' u v Hrm)).
  rewrite (path_length_node u), (path_length_node v);
    by rewrite ?(remove_edge_nodes G G' u v Hrm).
Qed.

Lemma measure_deletion_missing u v G :
  Graph.has_edge G u v = false →
  measure_and_apply u v false G = (G, Raise NetworkXError).
Proof.
  intros Huv. unfold measure_and_apply, mbind, M_bind, do_remove_edge.
  by rewrite remove_edge_Raise.
Qed.

Lemma incremental_step_value prev_cc du dv normalized cc n G_prime :
  n ∈ Graph.nodes G_prime → is_Some (prev_cc !! n) →
  incremental_step prev_cc du dv normalized cc n G_prime
  = (G_prime,
     Ok (<[n := incremental_value prev_cc du dv normalized G_prime n]> cc)).
Proof.
  intros Hn [c Hc]. unfold incremental_step, incremental_value.
  destruct (unaffected du dv n).
  - by rewrite Hc.
  - unfold mbind, M_bind. rewrite path_length_node by done.
    unfold get_graph, closeness_value.
    destruct (Qltb 0 (sum_values (Qnat <$> bfs G_prime n))
              && (1 <? Graph.len G_prime)); [|done].
    by destruct normalized.
Qed.

Lemma incremental_loop prev_cc du dv normalized G_prime l acc :
  (∀ n, n ∈ l → n ∈ Graph.nodes G_prime ∧ is_Some (prev_cc !! n)) →
  mfold (incremental_step prev_cc du dv normalized) acc l G_prime
  = (G_prime,
     Ok (fill (incremental_value prev_cc du dv normalized G_prime) acc l)).
Proof.
  revert acc. induction l as [|n l IH]; intros acc Hl; [done|].
  cbn [mfold]. unfold mbind at 1, M_bind at 1.
  destruct (Hl n) as [Hn Hp]; [left|].
  rewrite incremental_step_value by done.
  apply IH. intros k Hk. apply Hl. by right.
Qed.

(** The call on a directed graph. *)
Lemma incremental_directed edge prev_cc insertion normalized G :
  Graph.directed G = true →
  incremental_closeness_centrality edge prev_cc insertion normalized G
  = (G, Raise NetworkXNotImplemented).
Proof.
  intros Hd. unfold incremental_closeness_centrality,
    not_implemented_for_directed, mbind, M_bind, get_graph.
  by rewrite Hd.
Qed.

(** The call with a previous result that is not keyed by the nodes. *)
Lemma incremental_stale edge prev_cc insertion normalized G :
  Graph.directed G = false → dom prev_cc ≠ Graph.nodes G →
  incremental_closeness_centrality edge (Some prev_cc) insertion normalized G
  = (G, Raise NetworkXError).
Proof.
  intros Hd Hdom. unfold incremental_closeness_centrality,
    not_implemented_for_directed, mbind, M_bind, get_graph.
  rewrite Hd. fold (@mbind M _). unfold mbind, M_bind.
  by rewrite check_prev_cc_stale.
Qed.

(** The call whose change cannot be applied. *)
Lemma incremental_not_applied u v prev_cc insertion normalized G G1 e :
  Graph.directed G = false →
  (∀ p, prev_cc = Some p → dom p = Graph.nodes G) →
  measure_and_apply u v insertion G = (G1, Raise e) →
  incremental_closeness_centrality (u, v) prev_cc insertion normalized G
  = (G1, Raise e).
Proof.
  intros Hd Hdom Hm. unfold incremental_closeness_centrality,
    not_implemented_for_directed, mbind, M_bind, get_graph.
  rewrite Hd.
  assert (check_prev_cc prev_cc G = (G, Ok tt)) as ->.
  { destruct prev_cc as [p|]; [|done]. apply check_prev_cc_keys; auto. }
  by rewrite Hm.
Qed.

(** The call without a previous result. *)
Lemma incremental_no_prev u v insertion normalized G G_prime du dv :
  Graph.directed G = false →
  measure_and_apply u v insertion G = (G_prime, Ok (du, dv)) →
  incremental_closeness_centrality (u, v) None insertion normalized G
  = (G_prime, closeness_centrality G_prime None None true).
Proof.
  intros Hd Hm. unfold incremental_closeness_centrality,
    not_implemented_for_directed, mbind, M_bind, get_graph.
  rewrite Hd. simpl. by rewrite Hm.
Qed.

(** The call with a previous result, up to the point where the change is
    taken back. *)
Lemma incremental_with_prev u v prev_cc insertion normalized G G_prime du dv :
  Graph.directed G = false →
  dom prev_cc = Graph.nodes G →
  measure_and_apply u v insertion G = (G_prime, Ok (du, dv)) →
  Graph.nodes G_prime = Graph.nodes G →
  incremental_closeness_centrality (u, v) (Some prev_cc) insertion normalized G
  = match (if insertion then do_remove_edge u v else do_add_edge u v) G_prime with
    | (G_exit, Ok _) =>
        (G_exit, Ok (PyDict
          (fill (incremental_value prev_cc du dv normalized G_prime) ∅
             (elements (Graph.nodes G_prime)))))
    | (G_exit, Raise e) => (G_exit, Raise e)
    end.
Proof.
  intros Hd Hdom Hm Hnodes. unfold incremental_closeness_centrality,
    not_implemented_for_directed, mbind, M_bind, get_graph.
  rewrite Hd, check_prev_cc_keys, Hm by done.
  rewrite incremental_loop.
  - by destruct ((if insertion then do_remove_edge u v else do_add_edge u v)
      G_prime) as [G_exit [[]|e]].
  - intros n Hn%elem_of_elements. split; [done|].
    apply elem_of_dom. by rewrite Hdom, <-Hnodes.
Qed.

(** ** Sums of distances *)

Lemma Qnat_plus a b : (Qnat a + Qnat b)%Q = Qnat (a + b).
Proof.
  unfold Qnat, inject_Z, Qplus. simpl. f_equal. lia.
Qed.

Lemma sum_values_hops (m : gmap node nat) :
  sum_values (Qnat <$> m) = Qnat (sum_hops m).
Proof.
  unfold sum_values, sum_hops. rewrite map_fold_fmap, !map_fold_foldr.
  induction (map_to_list m) as [|[k d] l IH]; [done|].
  simpl. rewrite IH. apply Qnat_plus.
Qed.

Lemma sum_hops_insert (m : gmap node nat) k d :
  m !! k = None → sum_hops (<[k := d]> m) = sum_hops m + d.
Proof.
  intros Hk. unfold sum_hops. rewrite map_fold_insert_L; [done| |done].
  intros. lia.
Qed.

(** When every hop count is at least one, there are no more entries than
    hops. *)
Lemma size_le_sum_hops (m : gmap node nat) :
  (∀ k d, m !! k = Some d → 1 ≤ d) → size m ≤ sum_hops m.
Proof.
  induction m as [|k d m Hk IH] using map_ind; intros Hpos.
  - by rewrite map_size_empty.
  - rewrite map_size_insert_None, sum_hops_insert by done.
    assert (1 ≤ d) by (apply (Hpos k); by rewrite lookup_insert_eq).
    assert (size m ≤ sum_hops m); [|lia].
    apply IH. intros k' d' Hk'. apply (Hpos k').
    rewrite lookup_insert_ne; [done|congruence].
Qed.

(** When only the source is at hop count zero, the entries other than the
    source are no more than the hops. *)
Lemma size_le_S_sum_hops (m : gmap node nat) s :
  (∀ k d, m !! k = Some d → d = 0 → k = s) → size m ≤ S (sum_hops m).
Proof.
  intros Hzero.
  assert (Hrest : ∀ k d, delete s m !! k = Some d → 1 ≤ d).
  { intros k d [Hne Hk]%lookup_delete_Some.
    destruct d; [|lia]. destruct Hne. symmetry. by eapply Hzero. }
  apply size_le_sum_hops in Hrest.
  destruct (m !! s) as [d|] eqn:Hs.
  - rewrite <-(insert_delete_id m s d) by done.
    rewrite map_size_insert_None, sum_hops_insert by apply lookup_delete_eq.
    lia.
  - rewrite delete_id in Hrest by done. lia.
Qed.

Lemma bfs_size_le_sum_hops G s :
  Graph.wf G → s ∈ Graph.nodes G → size (bfs G s) ≤ S (sum_hops (bfs G s)).
Proof.
  intros Hwf Hs. apply (size_le_S_sum_hops _ s). intros k d Hk ->.
  apply bfs_lookup_distance in Hk; [|done..]. by apply distance_zero in Hk.
Qed.

Lemma bfs_dom G s :
  Graph.wf G → s ∈ Graph.nodes G → dom (bfs G s) ⊆ Graph.nodes G.
Proof.
  intros Hwf Hs t [d Hd]%elem_of_dom.
  apply bfs_lookup_distance in Hd as [Hw _]; [|done..].
  inversion Hw as [|w ? ? Hw' Hadj]; subst; [done|]. by eapply adj_nodes.
Qed.

Lemma bfs_size_le_len G s :
  Graph.wf G → s ∈ Graph.nodes G → size (bfs G s) ≤ Graph.len G.
Proof.
  intros Hwf Hs. rewrite <-size_dom. unfold Graph.len.
  apply subseteq_size. by apply bfs_dom.
Qed.

(** ** The range of one node's value *)

Lemma Qltb_true a b : Qltb a b = true ↔ (a < b)%Q.
Proof.
  unfold Qltb. rewrite negb_true_iff, <-not_true_iff_false, Qle_bool_iff.
  split; [apply Qnot_le_lt | apply Qlt_not_le].
Qed.

Lemma sum_values_empty : sum_values ∅ = 0%Q.
Proof. unfold sum_values. by rewrite map_fold_empty. Qed.

Lemma Qnat_pred_nonneg n : 1 ≤ n → (0 <= Qnat n - 1)%Q.
Proof. intros Hn. unfold Qnat, inject_Z, Qminus, Qplus, Qle. simpl. lia. Qed.

Lemma Qnat_pred_le n k : n ≤ S k → (Qnat n - 1 <= Qnat k)%Q.
Proof. intros Hn. unfold Qnat, inject_Z, Qminus, Qplus, Qle. simpl. lia. Qed.

Lemma Qnat_pred_mono n k : n ≤ k → (Qnat n - 1 <= Qnat k - 1)%Q.
Proof. intros Hn. unfold Qnat, inject_Z, Qminus, Qplus, Qle. simpl. lia. Qed.

Lemma Qnat_pred_pos n : 1 < n → (0 < Qnat n - 1)%Q.
Proof. intros Hn. unfold Qnat, inject_Z, Qminus, Qplus, Qlt. simpl. lia. Qed.

Lemma Qdiv_nonneg a b : (0 <= a → 0 < b → 0 <= a / b)%Q.
Proof.
  intros Ha Hb. apply Qle_shift_div_l; [done|]. by rewrite Qmult_0_l.
Qed.

Lemma Qdiv_le_1 a b : (a <= b → 0 < b → a / b <= 1)%Q.
Proof.
  intros Ha Hb. apply Qle_shift_div_r; [done|]. by rewrite Qmult_1_l.
Qed.

Lemma Qmult_le_1 a b : (0 <= a → a <= 1 → 0 <= b → b <= 1 → a * b <= 1)%Q.
Proof.
  intros Ha Ha1 Hb Hb1.
  apply Qle_trans with (1 * b)%Q; [|by rewrite Qmult_1_l].
  by apply Qmult_le_compat_r.
Qed.

Lemma closeness_value_nonneg sp N wf_improved :
  (0 <= closeness_value sp N wf_improved)%Q.
Proof.
  unfold closeness_value.
  destruct (Qltb 0 (sum_values sp) && (1 <? N)) eqn:Hc; [|apply Qle_refl].
  apply andb_true_iff in Hc as [Htot%Qltb_true HN%Nat.ltb_lt].
  assert (Hsz : 1 ≤ size sp).
  { destruct (decide (size sp = 0)) as [Hz|?]; [|lia].
    apply map_size_empty_iff in Hz. subst sp.
    rewrite sum_values_empty in Htot. by apply Qlt_irrefl in Htot. }
  pose proof (Qnat_pred_nonneg _ Hsz). pose proof (Qnat_pred_pos _ HN).
  destruct wf_improved.
  - apply Qmult_le_0_compat; by apply Qdiv_nonneg.
  - by apply Qdiv_nonneg.
Qed.

Lemma closeness_value_singleton sp wf_improved :
  closeness_value sp 1 wf_improved = 0%Q.
Proof. unfold closeness_value. by rewrite andb_false_r. Qed.

Lemma closeness_value_no_distance sp N wf_improved :
  (sum_values sp == 0)%Q → closeness_value sp N wf_improved = 0%Q.
Proof.
  intros Hz. unfold closeness_value.
  destruct (Qltb 0 (sum_values sp)) eqn:Hc; [|done].
  apply Qltb_true in Hc. rewrite Hz in Hc. by apply Qlt_irrefl in Hc.
Qed.

Lemma closeness_value_hops_le_1 (m : gmap node nat) N wf_improved :
  size m ≤ S (sum_hops m) → size m ≤ N →
  (closeness_value (Qnat <$> m) N wf_improved <= 1)%Q.
Proof.
  intros Hsum HN. unfold closeness_value.
  rewrite sum_values_hops, map_size_fmap.
  destruct (Qltb 0 (Qnat (sum_hops m)) && (1 <? N)) eqn:Hc; [|done].
  apply andb_true_iff in Hc as [Htot%Qltb_true HN1%Nat.ltb_lt].
  assert (Hsz : 1 ≤ size m).
  { destruct (decide (size m = 0)) as [Hz|?]; [|lia].
    apply map_size_empty_iff in Hz. subst m.
    unfold sum_hops in Htot. rewrite map_fold_empty in Htot.
    by apply Qlt_irrefl in Htot. }
  pose proof (Qnat_pred_nonneg _ Hsz). pose proof (Qnat_pred_pos _ HN1).
  pose proof (Qnat_pred_le _ _ Hsum). pose proof (Qnat_pred_mono _ _ HN).
  destruct wf_improved.
  - apply Qmult_le_1;
      [by apply Qdiv_nonneg | by apply Qdiv_le_1
      |by apply Qdiv_nonneg | by apply Qdiv_le_1].
  - by apply Qdiv_le_1.
Qed.

(** ** The work filter is exact *)

Lemma unaffected_hops (mu mv : gmap node nat) n :
  unaffected (Qnat <$> mu) (Qnat <$> mv) n = true ↔
  ∃ a b, mu !! n = Some a ∧ mv !! n = Some b ∧ a ≤ S b ∧ b ≤ S a.
Proof.
  unfold unaffected. rewrite !lookup_fmap.
  destruct (mu !! n) as [a|], (mv !! n) as [b|];
    cbn [fmap option_fmap option_map].
  - rewrite Qle_bool_iff, Qabs_Qle_condition.
    unfold Qnat, inject_Z, Qminus, Qplus, Qopp, Qle. simpl. split.
    + intros [? ?]. exists a, b. repeat split; lia.
    + intros (? & ? & [= <-] & [= <-] & ? & ?). lia.
  - split; [done | by intros (?&?&?&?&?)].
  - split; [done | by intros (?&?&?&?&?)].
  - split; [done | by intros (?&?&?&?&?)].
Qed.

(** [H] is [G] with the edge between [u] and [v] added.  A node that
    passes the test on the distance maps taken in [G] has the same search
    result in both graphs. *)
Lemma unaffected_same_search G H u v n :
  Graph.wf G → Graph.wf H →
  Graph.directed G = false →
  Graph.nodes H = Graph.nodes G →
  Graph.edge_set G ⊆ Graph.edge_set H →
  (∀ x y, (x, y) ∈ Graph.edge_set H →
     (x, y) ∈ Graph.edge_set G ∨ (x = u ∧ y = v) ∨ (x = v ∧ y = u)) →
  u ∈ Graph.nodes G → v ∈ Graph.nodes G → n ∈ Graph.nodes G →
  unaffected (Qnat <$> bfs G u) (Qnat <$> bfs G v) n = true →
  bfs G n = bfs H n.
Proof.
  intros HwfG HwfH Hd Hnodes Hsub Hnew Hu Hv Hn
    (a & b & Ha & Hb & Hab)%unaffected_hops.
  apply bfs_lookup_distance, distance_sym in Ha; [|done..].
  apply bfs_lookup_distance, distance_sym in Hb; [|done..].
  apply bfs_ext; [done | done | done | by rewrite Hnodes |].
  intros t d. by apply (distance_without_edge G H u v n a b).
Qed.

Lemma add_edge_len G u v :
  u ∈ Graph.nodes G → v ∈ Graph.nodes G →
  Graph.len (Graph.add_edge G u v) = Graph.len G.
Proof. intros. unfold Graph.len. by rewrite add_edge_nodes. Qed.

Lemma measure_and_apply_Ok u v insertion G G_prime du dv :
  measure_and_apply u v insertion G = (G_prime, Ok (du, dv)) →
  apply_change G (u, v) insertion = Ok G_prime ∧
  Graph.nodes G_prime = Graph.nodes G ∧
  u ∈ Graph.nodes G ∧ v ∈ Graph.nodes G ∧
  du = Qnat <$> bfs (if insertion then G else G_prime) u ∧
  dv = Qnat <$> bfs (if insertion then G else G_prime) v.
Proof.
  unfold apply_change. simpl. destruct insertion.
  - destruct (decide (u ∈ Graph.nodes G)) as [Hu|Hu];
      [destruct (decide (v ∈ Graph.nodes G)) as [Hv|Hv]|].
    + rewrite measure_insertion by done. intros [= <- <- <-].
      by rewrite add_edge_nodes.
    + rewrite measure_insertion_missing by auto. done.
    + rewrite measure_insertion_missing by auto. done.
  - unfold measure_and_apply, mbind, M_bind, do_remove_edge.
    destruct (Graph.remove_edge G u v) as [G1|e] eqn:Hrm; [|done].
    pose proof (remove_edge_nodes G G1 u v Hrm) as Hnodes.
    destruct (decide (u ∈ Graph.nodes G1)) as [Hu|Hu];
      [destruct (decide (v ∈ Graph.nodes G1)) as [Hv|Hv]|].
    + rewrite (path_length_node u), (path_length_node v) by done.
      intros [= <- <- <-]. by rewrite <-Hnodes.
    + by rewrite (path_length_node u), (path_length_missing v).
    + by rewrite (path_length_missing u).
Qed.

Lemma measure_and_apply_Raise u v insertion G G1 e :
  Graph.wf G →
  measure_and_apply u v insertion G = (G1, Raise e) → G1 = G.
Proof.
  intros Hwf. destruct insertion.
  - destruct (decide (u ∈ Graph.nodes G)) as [Hu|Hu];
      [destruct (decide (v ∈ Graph.nodes G)) as [Hv|Hv]|].
    + by rewrite measure_insertion.
    + rewrite measure_insertion_missing by auto. by intros [= <- _].
    + rewrite measure_insertion_missing by auto. by intros [= <- _].
  - destruct (Graph.has_edge G u v) eqn:Huv.
    + destruct (remove_edge_Ok G u v Huv) as [G' Hrm].
      by rewrite (measure_deletion u v G G').
    + rewrite measure_deletion_missing by done. by intros [= <- _].
Qed.

Lemma unaffected_true du dv n :
  unaffected du dv n = true ↔
  ∃ a b, du !! n = Some a ∧ dv !! n = Some b ∧ (Qabs (a - b) <= 1)%Q.
Proof.
  unfold unaffected. destruct (du !! n) as [a|], (dv !! n) as [b|].
  - rewrite Qle_bool_iff. split.
    + intros ?. by exists a, b.
    + by intros (? & ? & [= <-] & [= <-] & ?).
  - split; [done | by intros (?&?&?&?&?)].
  - split; [done | by intros (?&?&?&?&?)].
  - split; [done | by intros (?&?&?&?&?)].
Qed.

(** ** The reversed view and isolated nodes *)

#[global] Instance swap_inj : Inj (=) (=) Graph.swap.
Proof. intros [a b] [c d] [= -> ->]. done. Qed.

Lemma closeness_view_wf G : Graph.wf G → Graph.wf (closeness_view G).
Proof.
  intros Hwf. unfold closeness_view. destruct (Graph.directed G); [|done].
  intros [a b]. simpl. rewrite dom_kmap_L by apply _.
  intros [[x y] [[= -> ->] Hxy]]%elem_of_map. apply Hwf in Hxy. simpl in *. tauto.
Qed.

Lemma closeness_view_isolated G n : isolated G n → isolated (closeness_view G) n.
Proof.
  intros Hn. unfold closeness_view. destruct (Graph.directed G); [|done].
  intros [a b]. simpl. rewrite dom_kmap_L by apply _.
  intros [[x y] [[= -> ->] Hxy]]%elem_of_map. apply Hn in Hxy. simpl in *. tauto.
Qed.

Lemma isolated_adj G n : isolated G n → Graph.adj G n = ∅.
Proof.
  intros Hn. apply set_eq. intros b. rewrite elem_of_adj, elem_of_edge_set.
  split; [|by intros ?%not_elem_of_empty].
  intros [He|[_ He]]; apply Hn in He; simpl in He; tauto.
Qed.

Lemma walk_first G s t k :
  walk G s t k →
  (k = 0 ∧ t = s) ∨ ∃ a k', k = S k' ∧ a ∈ Graph.adj G s ∧ walk G a t k'.
Proof.
  intros Hw. induction Hw as [|t t' k Hw IH Hadj]; [by left|]. right.
  destruct IH as [[-> ->]|(a & k' & -> & Ha & Hw')].
  - exists t', 0. repeat split; [done | constructor].
  - exists a, (S k'). repeat split; [done|]. by econstructor.
Qed.

Lemma bfs_isolated G n :
  Graph.wf G → n ∈ Graph.nodes G → isolated G n → bfs G n = {[n := 0]}.
Proof.
  intros Hwf Hn Hiso%isolated_adj. apply map_eq. intros t. apply option_eq.
  intros d. rewrite bfs_lookup_distance, lookup_singleton_Some by done. split.
  - intros [Hw _]. apply walk_first in Hw as [[-> ->]|(a & k' & _ & Ha & _)];
      [done|]. rewrite Hiso in Ha. by apply not_elem_of_empty in Ha.
  - intros [<- <-]. apply distance_self.
Qed.

Lemma sum_values_source n : sum_values {[n := 0%Q]} = 0%Q.
Proof. unfold sum_values. by rewrite map_fold_singleton. Qed.

Lemma distance_map_isolated distance G n :
  Graph.wf G → n ∈ Graph.nodes G → isolated G n →
  distance_map distance G n = {[n := 0%Q]}.
Proof.
  intros Hwf Hn Hiso. destruct distance as [w|]; simpl.
  - by rewrite dijkstra_no_neighbour by (by apply isolated_adj).
  - rewrite bfs_isolated by done. by rewrite map_fmap_singleton.
Qed.

(** ** The properties *)

(** C1, for the previous result that the batch computation gives.  For
    every undirected graph, every single-edge change that the graph
    accepts (an insertion between two of its nodes, or the deletion of an
    edge it has) and the previous result that the batch computation gives
    on the graph, the incremental update returns the dictionary that the
    batch computation gives on the changed graph, with the same
    normalization flag. *)
Theorem incremental_matches_batch G edge insertion normalized prev_cc G_prime :
  Graph.wf G →
  Graph.directed G = false →
  (insertion = true → edge.1 ∈ Graph.nodes G ∧ edge.2 ∈ Graph.nodes G) →
  apply_change G edge insertion = Ok G_prime →
  closeness_centrality G None None normalized = Ok (PyDict prev_cc) →
  ∃ G_exit out,
    incremental_closeness_centrality edge (Some prev_cc) insertion normalized G
      = (G_exit, Ok (PyDict out)) ∧
    closeness_centrality G_prime None None normalized = Ok (PyDict out).
Proof.
  destruct edge as [u v]. simpl. intros Hwf Hd Hins Hchange Hprev.
  rewrite closeness_centrality_dict in Hprev. injection Hprev as Hprev.
  rewrite closeness_view_undirected in Hprev by done. simpl in Hprev.
  assert (Hdom : dom prev_cc = Graph.nodes G).
  { rewrite <-Hprev. apply dom_fill_elements. }
  assert (Hlook : ∀ n, n ∈ Graph.nodes G →
    prev_cc !! n
    = Some (closeness_value (Qnat <$> bfs G n) (Graph.len G) normalized)).
  { intros n Hn. rewrite <-Hprev, lookup_fill_elements. by rewrite decide_True. }
  unfold apply_change in Hchange. simpl in Hchange.
  rewrite closeness_centrality_dict. destruct insertion.
  - injection Hchange as <-. destruct Hins as [Hu Hv]; [done|].
    pose proof (add_edge_nodes G u v Hu Hv) as Hnodes.
    rewrite (incremental_with_prev u v prev_cc true normalized G
      (Graph.add_edge G u v) _ _ Hd Hdom (measure_insertion u v G Hu Hv) Hnodes).
    assert (Hin : Graph.has_edge (Graph.add_edge G u v) u v = true).
    { apply has_edge_true, elem_of_edge_set_add_edge; auto. }
    destruct (remove_edge_Ok _ _ _ Hin) as [G_exit Hrm].
    unfold do_remove_edge. rewrite Hrm. exists G_exit. eexists. split; [done|].
    do 2 f_equal. rewrite closeness_view_undirected by done.
    apply fill_ext. intros n Hn. rewrite Hnodes in Hn.
    unfold incremental_value, distance_map.
    destruct (unaffected _ _ n) eqn:Hun; [|done].
    rewrite Hlook by done. simpl. rewrite add_edge_len by done.
    rewrite (unaffected_same_search G (Graph.add_edge G u v) u v n); try done.
    + by apply add_edge_wf.
    + by apply add_edge_edge_set_sub.
    + intros x y. by rewrite elem_of_edge_set_add_edge.
  - pose proof (remove_edge_nodes G G_prime u v Hchange) as Hnodes.
    pose proof (remove_edge_directed G G_prime u v Hchange) as Hd'.
    rewrite Hd in Hd'.
    pose proof (remove_edge_wf G G_prime u v Hchange Hwf) as Hwf'.
    destruct (has_edge_nodes G u v Hwf (remove_edge_has_edge G G_prime u v Hchange))
      as [Hu Hv].
    rewrite (incremental_with_prev u v prev_cc false normalized G G_prime
      _ _ Hd Hdom (measure_deletion u v G G_prime Hwf Hchange) Hnodes).
    unfold do_add_edge. eexists _, _. split; [done|].
    do 2 f_equal. rewrite closeness_view_undirected by done.
    apply fill_ext. intros n Hn.
    unfold incremental_value, distance_map.
    destruct (unaffected _ _ n) eqn:Hun; [|done].
    rewrite Hlook by (by rewrite <-Hnodes). simpl.
    rewrite <-(remove_edge_len G G_prime u v Hchange).
    rewrite (unaffected_same_search G_prime G u v n); try done;
      try (by rewrite Hnodes).
    + by apply (remove_edge_edge_set_sub G G_prime u v).
    + intros x y Hxy.
      rewrite (elem_of_edge_set_remove_edge G G_prime u v) by done.
      destruct (decide (x = u ∧ y = v)); [tauto|].
      destruct (decide (x = v ∧ y = u)); [tauto|]. left. tauto.
Qed.

Lemma incremental_matches_batch_witness :
  ∃ G_exit out,
    incremental_closeness_centrality (1, 5)
      (Some (closeness_dict path_graph_5 true)) true true path_graph_5
      = (G_exit, Ok (PyDict out)) ∧
    closeness_centrality (Graph.add_edge path_graph_5 1 5) None None true
      = Ok (PyDict out).
Proof.
  apply (incremental_matches_batch path_graph_5 (1, 5) true true).
  - apply (bool_decide_unpack _). vm_compute. exact I.
  - reflexivity.
  - intros _. split; by vm_compute.
  - reflexivity.
  - vm_compute. reflexivity.
Defined.

(** C1 does not hold for every previous result keyed by the nodes: on the
    path 1 - 2 - 3 with the edge (1, 3) inserted and a previous result of
    zeros, node 2 keeps the value 0, while the batch computation on the
    changed graph gives it 1. *)
Lemma incremental_copies_previous_counterexample :
  Graph.directed path_graph_3 = false ∧
  dom zeros_3 = Graph.nodes path_graph_3 ∧
  ∃ G_exit out batch c,
    incremental_closeness_centrality (1, 3) (Some zeros_3) true true path_graph_3
      = (G_exit, Ok (PyDict out)) ∧
    closeness_centrality (Graph.add_edge path_graph_3 1 3) None None true
      = Ok (PyDict batch) ∧
    out !! 2 = Some 0%Q ∧ batch !! 2 = Some c ∧ (c == 1)%Q ∧ out ≠ batch.
Proof.
  split; [reflexivity|]. split; [by vm_compute|].
  eexists _, _, _, _.
  split; [vm_compute; reflexivity|]. split; [vm_compute; reflexivity|].
  split; [by vm_compute|]. split; [by vm_compute|]. split; [reflexivity|].
  intros Heq. apply (f_equal (λ m : gmap nat Q, m !! 2)) in Heq.
  vm_compute in Heq. discriminate Heq.
Qed.

(** Where the graph is left as it was found: for every call to the
    incremental update on a well-formed graph with a previous result
    supplied, whether the call returns or raises, the graph's edge set at
    call exit equals its edge set at call entry, unless the edge to insert
    was already present. *)
Lemma incremental_restores_edge_set G edge prev_cc insertion normalized :
  Graph.wf G →
  Graph.edge_set
    (incremental_closeness_centrality edge (Some prev_cc) insertion normalized G).1
    = Graph.edge_set G
  ∨ (insertion = true ∧ Graph.has_edge G edge.1 edge.2 = true).
Proof.
  destruct edge as [u v]. simpl. intros Hwf.
  destruct (Graph.directed G) eqn:Hd.
  { left. by rewrite incremental_directed. }
  destruct (decide (dom prev_cc = Graph.nodes G)) as [Hdom|Hdom];
    [|left; by rewrite incremental_stale].
  destruct (measure_and_apply u v insertion G) as [G_prime [[du dv]|e]] eqn:Hm.
  - destruct (measure_and_apply_Ok _ _ _ _ _ _ _ Hm)
      as (Hchange & Hnodes & Hu & Hv & _ & _).
    rewrite (incremental_with_prev u v prev_cc insertion normalized G G_prime
      du dv Hd Hdom Hm Hnodes).
    unfold apply_change in Hchange. simpl in Hchange. destruct insertion.
    + injection Hchange as <-.
      destruct (Graph.has_edge G u v) eqn:Huv; [by right|left].
      unfold do_remove_edge. by rewrite remove_add_edge.
    + left. unfold do_add_edge. simpl.
      by apply (add_remove_edge_edge_set G G_prime u v).
  - left. pose proof (measure_and_apply_Raise _ _ _ _ _ _ Hwf Hm) as ->.
    rewrite (incremental_not_applied u v (Some prev_cc) insertion normalized
      G G e); try done. by intros p [= <-].
Qed.

(** C2 asks that the graph's edge set at call exit equals its edge set at
    call entry on every call.  Two calls on the path 1 - 2 - 3 end
    otherwise: without a previous result, the call returns with the
    inserted edge (1, 3) still in the graph; and with a previous result,
    the insertion of the edge (1, 2), which the graph has, returns with
    that edge removed. *)
Theorem incremental_keeps_change :
  (∃ G_exit out,
     incremental_closeness_centrality (1, 3) None true true path_graph_3
       = (G_exit, Ok (PyDict out)) ∧
     Graph.has_edge path_graph_3 1 3 = false ∧
     Graph.has_edge G_exit 1 3 = true ∧
     Graph.edge_set G_exit ≠ Graph.edge_set path_graph_3) ∧
  (∃ G_exit out,
     incremental_closeness_centrality (1, 2)
       (Some (closeness_dict path_graph_3 true)) true true path_graph_3
       = (G_exit, Ok (PyDict out)) ∧
     Graph.has_edge path_graph_3 1 2 = true ∧
     Graph.has_edge G_exit 1 2 = false ∧
     Graph.edge_set G_exit ≠ Graph.edge_set path_graph_3).
Proof.
  split.
  - eexists _, _. split; [vm_compute; reflexivity|].
    split; [by vm_compute|]. split; [by vm_compute|].
    intros Heq.
    apply (f_equal (λ X : gset (nat * nat), bool_decide ((1, 3) ∈ X))) in Heq.
    vm_compute in Heq. discriminate Heq.
  - eexists _, _. split; [vm_compute; reflexivity|].
    split; [by vm_compute|]. split; [by vm_compute|].
    intros Heq.
    apply (f_equal (λ X : gset (nat * nat), bool_decide ((1, 2) ∈ X))) in Heq.
    vm_compute in Heq. discriminate Heq.
Qed.

(** C3, with the insertion measured before the change.  In the
    incremental update, for a change that the graph accepts, the distance
    maps from the two endpoints are measured on the graph before the edge
    is added for an insertion, and on the graph after the edge is removed
    for a deletion; the graph is then left with the change applied. *)
Theorem distances_measured u v insertion G G_prime :
  Graph.wf G →
  (insertion = true → u ∈ Graph.nodes G ∧ v ∈ Graph.nodes G) →
  apply_change G (u, v) insertion = Ok G_prime →
  ∃ du dv,
    measure_and_apply u v insertion G = (G_prime, Ok (du, dv)) ∧
    single_source_shortest_path_length (if insertion then G else G_prime) u
      = Ok du ∧
    single_source_shortest_path_length (if insertion then G else G_prime) v
      = Ok dv.
Proof.
  intros Hwf Hins Hchange. unfold apply_change in Hchange. simpl in Hchange.
  unfold single_source_shortest_path_length. destruct insertion.
  - injection Hchange as <-. destruct Hins as [Hu Hv]; [done|].
    rewrite (measure_insertion u v G Hu Hv), !decide_True by done.
    by eexists _, _.
  - destruct (has_edge_nodes G u v Hwf
      (remove_edge_has_edge G G_prime u v Hchange)) as [Hu Hv].
    rewrite (measure_deletion u v G G_prime Hwf Hchange).
    rewrite !decide_True by (by rewrite (remove_edge_nodes G G_prime u v)).
    by eexists _, _.
Qed.

Lemma distances_measured_witness :
  ∃ du dv,
    measure_and_apply 1 3 true path_graph_3
      = (Graph.add_edge path_graph_3 1 3, Ok (du, dv)) ∧
    single_source_shortest_path_length path_graph_3 1 = Ok du ∧
    single_source_shortest_path_length path_graph_3 3 = Ok dv.
Proof.
  apply (distances_measured 1 3 true path_graph_3).
  - apply (bool_decide_unpack _). vm_compute. exact I.
  - intros _. split; by vm_compute.
  - reflexivity.
Defined.

(** C3 does not hold for an insertion: on the path 1 - 2 - 3 with the
    edge (1, 3) inserted, the measured distance from 1 to 3 is 2, and it
    is 1 in the graph after the change. *)
Lemma distances_measured_after_counterexample :
  ∃ G_prime du dv after,
    measure_and_apply 1 3 true path_graph_3 = (G_prime, Ok (du, dv)) ∧
    single_source_shortest_path_length G_prime 1 = Ok after ∧
    du !! 3 = Some (Qnat 2) ∧ after !! 3 = Some (Qnat 1) ∧ du ≠ after.
Proof.
  eexists _, _, _, _. split; [vm_compute; reflexivity|].
  split; [vm_compute; reflexivity|].
  split; [by vm_compute|]. split; [by vm_compute|].
  intros Heq. apply (f_equal (λ m : gmap nat Q, m !! 3)) in Heq.
  vm_compute in Heq. discriminate Heq.
Qed.

(** Whenever the call returns a dictionary, the previous result was
    supplied to a loop that copies or recomputes each node's value. *)
Lemma incremental_filter_returned G edge prev_cc insertion normalized G_exit out :
  incremental_closeness_centrality edge (Some prev_cc) insertion normalized G
    = (G_exit, Ok (PyDict out)) →
  ∃ G_prime du dv,
    measure_and_apply edge.1 edge.2 insertion G = (G_prime, Ok (du, dv)) ∧
    ∀ n, n ∈ Graph.nodes G_prime →
      ((∃ a b, du !! n = Some a ∧ dv !! n = Some b ∧ (Qabs (a - b) <= 1)%Q) →
       is_Some (prev_cc !! n) ∧ out !! n = prev_cc !! n) ∧
      (¬ (∃ a b, du !! n = Some a ∧ dv !! n = Some b ∧ (Qabs (a - b) <= 1)%Q) →
       ∃ c, closeness_centrality G_prime (Some n) None normalized
              = Ok (PyFloat c) ∧
            out !! n = Some c).
Proof.
  destruct edge as [u v]. simpl. intros Hrun.
  destruct (Graph.directed G) eqn:Hd.
  { by rewrite incremental_directed in Hrun. }
  destruct (decide (dom prev_cc = Graph.nodes G)) as [Hdom|Hdom];
    [|by rewrite incremental_stale in Hrun].
  destruct (measure_and_apply u v insertion G) as [G_prime [[du dv]|e]] eqn:Hm.
  2:{ rewrite (incremental_not_applied u v (Some prev_cc) insertion normalized
        G G_prime e) in Hrun; try done. by intros p [= <-]. }
  destruct (measure_and_apply_Ok _ _ _ _ _ _ _ Hm)
    as (Hchange & Hnodes & Hu & Hv & _ & _).
  rewrite (incremental_with_prev u v prev_cc insertion normalized G G_prime
    du dv Hd Hdom Hm Hnodes) in Hrun.
  exists G_prime, du, dv. split; [done|]. intros n Hn.
  destruct ((if insertion then do_remove_edge u v else do_add_edge u v) G_prime)
    as [G2 [[]|e]]; [|done].
  injection Hrun as _ <-.
  rewrite lookup_fill_elements, decide_True by done.
  unfold incremental_value. rewrite <-unaffected_true.
  assert (Hp : is_Some (prev_cc !! n)).
  { apply elem_of_dom. by rewrite Hdom, <-Hnodes. }
  split.
  - intros ->. split; [done|]. by destruct Hp as [c ->].
  - intros ->%not_true_is_false. eexists. split; [|done].
    rewrite closeness_centrality_node by done.
    rewrite closeness_view_undirected; [done|].
    unfold apply_change in Hchange. simpl in Hchange. destruct insertion.
    + by injection Hchange as <-.
    + by rewrite (remove_edge_directed G G_prime u v).
Qed.

(** With a previous result keyed by the nodes and a change that the graph
    accepts, the call returns a dictionary. *)
Lemma incremental_returns G edge prev_cc insertion normalized G_prime :
  Graph.wf G →
  Graph.directed G = false →
  dom prev_cc = Graph.nodes G →
  (insertion = true → edge.1 ∈ Graph.nodes G ∧ edge.2 ∈ Graph.nodes G) →
  apply_change G edge insertion = Ok G_prime →
  ∃ G_exit out,
    incremental_closeness_centrality edge (Some prev_cc) insertion normalized G
    = (G_exit, Ok (PyDict out)).
Proof.
  destruct edge as [u v]. simpl. intros Hwf Hd Hdom Hins Hchange.
  unfold apply_change in Hchange. simpl in Hchange. destruct insertion.
  - injection Hchange as <-. destruct Hins as [Hu Hv]; [done|].
    rewrite (incremental_with_prev u v prev_cc true normalized G
      (Graph.add_edge G u v) _ _ Hd Hdom (measure_insertion u v G Hu Hv)
      (add_edge_nodes G u v Hu Hv)).
    assert (Hin : Graph.has_edge (Graph.add_edge G u v) u v = true).
    { apply has_edge_true, elem_of_edge_set_add_edge; auto. }
    destruct (remove_edge_Ok _ _ _ Hin) as [G_exit Hrm].
    unfold do_remove_edge. rewrite Hrm. by eexists _, _.
  - rewrite (incremental_with_prev u v prev_cc false normalized G G_prime
      _ _ Hd Hdom (measure_deletion u v G G_prime Hwf Hchange)
      (remove_edge_nodes G G_prime u v Hchange)).
    unfold do_add_edge. by eexists _, _.
Qed.

(** C4.  In the incremental path (a previous result keyed by the nodes of
    an undirected graph, and a change that the graph accepts), the call
    returns a dictionary in which, for every node of the graph: when the
    node is in both endpoint distance maps and its two distances differ
    by at most 1, its value is the one of the previous result; otherwise
    its value is the one the batch computation gives that node, by hop
    counts, on the changed graph. *)
Theorem incremental_filter G edge prev_cc insertion normalized G_prime :
  Graph.wf G →
  Graph.directed G = false →
  dom prev_cc = Graph.nodes G →
  (insertion = true → edge.1 ∈ Graph.nodes G ∧ edge.2 ∈ Graph.nodes G) →
  apply_change G edge insertion = Ok G_prime →
  ∃ G_exit out du dv,
    incremental_closeness_centrality edge (Some prev_cc) insertion normalized G
      = (G_exit, Ok (PyDict out)) ∧
    measure_and_apply edge.1 edge.2 insertion G = (G_prime, Ok (du, dv)) ∧
    ∀ n, n ∈ Graph.nodes G_prime →
      ((∃ a b, du !! n = Some a ∧ dv !! n = Some b ∧ (Qabs (a - b) <= 1)%Q) →
       is_Some (prev_cc !! n) ∧ out !! n = prev_cc !! n) ∧
      (¬ (∃ a b, du !! n = Some a ∧ dv !! n = Some b ∧ (Qabs (a - b) <= 1)%Q) →
       ∃ c, closeness_centrality G_prime (Some n) None normalized
              = Ok (PyFloat c) ∧
            out !! n = Some c).
Proof.
  intros Hwf Hd Hdom Hins Hchange.
  destruct (incremental_returns G edge prev_cc insertion normalized G_prime)
    as (G_exit & out & Hrun); [done..|].
  destruct (incremental_filter_returned _ _ _ _ _ _ _ Hrun)
    as (G1 & du & dv & Hm & Hall).
  exists G_exit, out, du, dv. split; [done|].
  destruct (measure_and_apply_Ok _ _ _ _ _ _ _ Hm) as (Hchange' & _).
  destruct edge as [u v]. simpl in *.
  rewrite Hchange in Hchange'. injection Hchange' as <-. by split.
Qed.

Lemma incremental_filter_witness :
  ∃ G_exit out du dv,
    incremental_closeness_centrality (1, 5)
      (Some (closeness_dict path_graph_5 true)) true true path_graph_5
      = (G_exit, Ok (PyDict out)) ∧
    measure_and_apply (1, 5).1 (1, 5).2 true path_graph_5
      = (Graph.add_edge path_graph_5 1 5, Ok (du, dv)) ∧
    ∀ n, n ∈ Graph.nodes (Graph.add_edge path_graph_5 1 5) →
      ((∃ a b, du !! n = Some a ∧ dv !! n = Some b ∧ (Qabs (a - b) <= 1)%Q) →
       is_Some (closeness_dict path_graph_5 true !! n) ∧
       out !! n = closeness_dict path_graph_5 true !! n) ∧
      (¬ (∃ a b, du !! n = Some a ∧ dv !! n = Some b ∧ (Qabs (a - b) <= 1)%Q) →
       ∃ c, closeness_centrality (Graph.add_edge path_graph_5 1 5) (Some n)
              None true = Ok (PyFloat c) ∧
            out !! n = Some c).
Proof.
  apply (incremental_filter path_graph_5 (1, 5)
           (closeness_dict path_graph_5 true) true true).
  - apply (bool_decide_unpack _). vm_compute. exact I.
  - reflexivity.
  - by vm_compute.
  - intros _. split; by vm_compute.
  - reflexivity.
Defined.

(** C5, with the upper bound for hop counts.  For every graph, in either
    distance mode and with or without Wasserman-Faust scaling, and every
    node of the graph: the centrality is computed, for the node alone and
    as its entry of the dictionary, whenever the weights that the
    [distance] attribute names are numbers that are not negative, and
    always without the attribute; whenever it is computed it is at least
    0, and it is 0 whenever the node is isolated, its raw distance sum is
    0, or the graph has exactly one node.  With hop-count distances the
    centrality is at most 1. *)
Theorem closeness_range G n distance wf_improved :
  Graph.wf G → n ∈ Graph.nodes G →
  (weights_ok distance G →
   ∃ c m,
     closeness_centrality G (Some n) distance wf_improved = Ok (PyFloat c) ∧
     closeness_centrality G None distance wf_improved = Ok (PyDict m) ∧
     m !! n = Some c) ∧
  (∀ c,
     closeness_centrality G (Some n) distance wf_improved = Ok (PyFloat c) →
     (0 <= c)%Q ∧
     (distance = None → (c <= 1)%Q) ∧
     (isolated G n ∨ Graph.len G = 1 → c = 0%Q) ∧
     ((sum_values (distance_map distance (closeness_view G) n) == 0)%Q →
      c = 0%Q)).
Proof.
  intros Hwf Hn. split.
  { intros Hok. eexists _, _.
    split; [apply closeness_centrality_node_weights; auto|].
    split; [by apply closeness_centrality_dict_weights|].
    by rewrite lookup_fill_elements, decide_True. }
  intros c [_ ->]%closeness_centrality_node_returned.
  split; [apply closeness_value_nonneg|].
  pose proof (closeness_view_wf G Hwf) as Hwf'.
  assert (Hn' : n ∈ Graph.nodes (closeness_view G))
    by by rewrite closeness_view_nodes.
  split; [|split].
  - intros ->. simpl. apply closeness_value_hops_le_1.
    + by apply bfs_size_le_sum_hops.
    + rewrite <-closeness_view_len. by apply bfs_size_le_len.
  - intros [Hiso| ->]; [|apply closeness_value_singleton].
    apply closeness_value_no_distance.
    rewrite distance_map_isolated, sum_values_source;
      [done..|by apply closeness_view_isolated].
  - apply closeness_value_no_distance.
Qed.

Lemma closeness_range_witness :
  (weights_ok None path_graph_5 →
   ∃ c m,
     closeness_centrality path_graph_5 (Some 3) None true = Ok (PyFloat c) ∧
     closeness_centrality path_graph_5 None None true = Ok (PyDict m) ∧
     m !! 3 = Some c) ∧
  (∀ c,
     closeness_centrality path_graph_5 (Some 3) None true = Ok (PyFloat c) →
     (0 <= c)%Q ∧
     (@None string = None → (c <= 1)%Q) ∧
     (isolated path_graph_5 3 ∨ Graph.len path_graph_5 = 1 → c = 0%Q) ∧
     ((sum_values (distance_map None (closeness_view path_graph_5) 3) == 0)%Q →
      c = 0%Q)).
Proof.
  apply (closeness_range path_graph_5 3 None true).
  - apply (bool_decide_unpack _). vm_compute. exact I.
  - by vm_compute.
Defined.

(** C5 does not hold with weighted distances: two nodes joined by an edge
    of weight one half have centrality 2. *)
Lemma closeness_weighted_counterexample :
  ∃ c,
    closeness_centrality weighted_pair (Some 1) (Some "weight") true
      = Ok (PyFloat c) ∧
    (c == 2)%Q ∧ ¬ (c <= 1)%Q.
Proof.
  eexists. split; [vm_compute; reflexivity|]. split; [reflexivity|].
  intros Hle. vm_compute in Hle. by apply Hle.
Qed.

(** C6, for undirected graphs.  For every call to the incremental update
    on an undirected graph with a previous result whose key set differs
    from the graph's node set, [NetworkXError] is raised and the graph is
    left untouched. *)
Theorem incremental_rejects_stale G edge prev_cc insertion normalized :
  Graph.directed G = false →
  dom prev_cc ≠ Graph.nodes G →
  incremental_closeness_centrality edge (Some prev_cc) insertion normalized G
  = (G, Raise NetworkXError).
Proof.
  intros Hd Hdom.
  unfold incremental_closeness_centrality, not_implemented_for_directed.
  unfold mbind at 1, M_bind at 1, get_graph. rewrite Hd.
  unfold mbind at 1, M_bind at 1.
  by rewrite (check_prev_cc_stale prev_cc G Hdom).
Qed.

Lemma incremental_rejects_stale_witness :
  incremental_closeness_centrality (1, 3) (Some stale_2) true true path_graph_3
  = (path_graph_3, Raise NetworkXError).
Proof.
  apply (incremental_rejects_stale path_graph_3 (1, 3) stale_2 true true).
  - reflexivity.
  - intros Heq. apply (f_equal (λ X : gset nat, bool_decide (2 ∈ X))) in Heq.
    vm_compute in Heq. discriminate Heq.
Defined.

(** C6 does not hold on a directed graph: the call with a previous result
    that lacks node 2 raises [NetworkXNotImplemented]. *)
Lemma incremental_stale_directed_counterexample :
  dom stale_2 ≠ Graph.nodes directed_pair ∧
  incremental_closeness_centrality (1, 2) (Some stale_2) true true directed_pair
  = (directed_pair, Raise NetworkXNotImplemented).
Proof.
  split; [|reflexivity].
  intros Heq. apply (f_equal (λ X : gset nat, bool_decide (2 ∈ X))) in Heq.
  vm_compute in Heq. discriminate Heq.
Qed.

(** C7.  For every directed graph, the incremental update raises
    [NetworkXNotImplemented], and the graph is left untouched. *)
Theorem incremental_rejects_directed G edge prev_cc insertion normalized :
  Graph.directed G = true →
  incremental_closeness_centrality edge prev_cc insertion normalized G
  = (G, Raise NetworkXNotImplemented).
Proof.
  intros Hd.
  unfold incremental_closeness_centrality, not_implemented_for_directed.
  unfold mbind at 1, M_bind at 1, get_graph. by rewrite Hd.
Qed.

Lemma incremental_rejects_directed_witness :
  incremental_closeness_centrality (2, 1) None true true directed_pair
  = (directed_pair, Raise NetworkXNotImplemented).
Proof.
  apply (incremental_rejects_directed directed_pair (2, 1) None true true).
  reflexivity.
Defined.




(** C9.  On the path graph with nodes 1 to 5 and edges (1,2), (2,3),
    (3,4), (4,5), the batch computation with hop-count distances and
    Wasserman-Faust scaling gives node 3 the centrality 4/6. *)
Theorem closeness_path_graph_5 :
  ∃ c m,
    closeness_centrality path_graph_5 (Some 3) None true = Ok (PyFloat c) ∧
    closeness_centrality path_graph_5 None None true = Ok (PyDict m) ∧
    m !! 3 = Some c ∧ (c == 4 # 6)%Q.
Proof.
  eexists _, _. split; [vm_compute; reflexivity|].
  split; [vm_compute; reflexivity|]. split; [by vm_compute|]. reflexivity.
Qed.

(** C10.  For every undirected graph that already has the edge (u, v) and
    every previous result keyed by the nodes, the incremental update with
    the insertion of (u, v) returns a dictionary without raising, and the
    graph it leaves behind no longer has the edge. *)
Theorem incremental_duplicate_insertion G u v prev_cc normalized :
  Graph.wf G →
  Graph.directed G = false →
  Graph.has_edge G u v = true →
  dom prev_cc = Graph.nodes G →
  ∃ G_exit out,
    incremental_closeness_centrality (u, v) (Some prev_cc) true normalized G
      = (G_exit, Ok (PyDict out)) ∧
    Graph.has_edge G_exit u v = false.
Proof.
  intros Hwf Hd Huv Hdom. destruct (has_edge_nodes G u v Hwf Huv) as [Hu Hv].
  rewrite (incremental_with_prev u v prev_cc true normalized G
    (Graph.add_edge G u v) _ _ Hd Hdom (measure_insertion u v G Hu Hv)
    (add_edge_nodes G u v Hu Hv)).
  assert (Hin : Graph.has_edge (Graph.add_edge G u v) u v = true).
  { apply has_edge_true. rewrite add_edge_present by done.
    by apply has_edge_true. }
  destruct (remove_edge_Ok _ _ _ Hin) as [G_exit Hrm].
  unfold do_remove_edge. rewrite Hrm. eexists _, _. split; [done|].
  by apply (remove_edge_gone (Graph.add_edge G u v) G_exit u v).
Qed.

Lemma incremental_duplicate_insertion_witness :
  ∃ G_exit out,
    incremental_closeness_centrality (1, 2)
      (Some (closeness_dict path_graph_3 true)) true true path_graph_3
      = (G_exit, Ok (PyDict out)) ∧
    Graph.has_edge G_exit 1 2 = false.
Proof.
  apply (incremental_duplicate_insertion path_graph_3 1 2).
  - apply (bool_decide_unpack _). vm_compute. exact I.
  - reflexivity.
  - by vm_compute.
  - by vm_compute.
Defined.

(** ** Further properties of the two functions *)

Lemma add_edge_same_nodes G u v :
  u ∈ Graph.nodes G → v ∈ Graph.nodes G →
  Graph.nodes (Graph.add_edge G u v) = Graph.nodes G ∧
  Graph.directed (Graph.add_edge G u v) = Graph.directed G.
Proof. intros Hu Hv. split; [by apply add_edge_nodes | done]. Qed.

(** Whatever its outcome, the measuring phase keeps the nodes and the
    kind of the graph. *)
Lemma measure_and_apply_frame u v insertion G :
  Graph.nodes (measure_and_apply u v insertion G).1 = Graph.nodes G ∧
  Graph.directed (measure_and_apply u v insertion G).1 = Graph.directed G.
Proof.
  destruct (measure_and_apply u v insertion G) as [G1 [[du dv]|e]] eqn:Hm.
  - destruct (measure_and_apply_Ok _ _ _ _ _ _ _ Hm)
      as (Hchange & Hnodes & Hu & Hv & _ & _).
    split; [done|]. unfold apply_change in Hchange. simpl in *.
    destruct insertion.
    + by injection Hchange as <-.
    + by apply (remove_edge_directed G G1 u v).
  - simpl. destruct insertion.
    + assert (G1 = G) as ->; [|done].
      destruct (decide (u ∈ Graph.nodes G)) as [Hu|Hu];
        [destruct (decide (v ∈ Graph.nodes G)) as [Hv|Hv]|].
      * by rewrite measure_insertion in Hm.
      * rewrite measure_insertion_missing in Hm by auto. by injection Hm.
      * rewrite measure_insertion_missing in Hm by auto. by injection Hm.
    + unfold measure_and_apply, mbind, M_bind, do_remove_edge in Hm.
      destruct (Graph.remove_edge G u v) as [G2|e2] eqn:Hrm.
      * assert (G1 = G2) as ->.
        { destruct (decide (u ∈ Graph.nodes G2));
            [destruct (decide (v ∈ Graph.nodes G2))|].
          - by rewrite (path_length_node u), (path_length_node v) in Hm.
          - rewrite (path_length_node u), (path_length_missing v) in Hm by done.
            by injection Hm.
          - rewrite (path_length_missing u) in Hm by done. by injection Hm. }
        split; [by apply (remove_edge_nodes G G2 u v)
               |by apply (remove_edge_directed G G2 u v)].
      * by injection Hm as <- _.
Qed.

(** X1.  A call of [closeness_centrality] without [u] returns a
    dictionary whenever the weights that the [distance] attribute names
    are numbers that are not negative, and always without [distance].
    Whenever the call returns, in either distance mode, the result is a
    dictionary whose keys are exactly the nodes of the graph, so that the
    key check of the incremental update accepts it as the previous result
    for that graph. *)
Theorem closeness_centrality_keys G distance wf_improved :
  (weights_ok distance G →
   ∃ m, closeness_centrality G None distance wf_improved = Ok (PyDict m)) ∧
  (∀ r,
     closeness_centrality G None distance wf_improved = Ok r →
     ∃ m, r = PyDict m ∧ dom m = Graph.nodes G ∧
          check_prev_cc (Some m) G = (G, Ok tt)).
Proof.
  split.
  - intros Hok. eexists. by apply closeness_centrality_dict_weights.
  - intros r (m & -> & Hdom)%closeness_centrality_dict_returned.
    exists m. split; [done|]. split; [done|]. by apply check_prev_cc_keys.
Qed.

Lemma closeness_centrality_keys_witness :
  ∃ m,
    closeness_centrality weighted_pair None (Some "weight") true
    = Ok (PyDict m).
Proof.
  apply (proj1 (closeness_centrality_keys weighted_pair (Some "weight") true)).
  apply (bool_decide_unpack _). vm_compute. exact I.
Defined.

(** X2.  The key check of lines 208-214, which compares three sizes,
    accepts a previous result exactly when its key set is the node set of
    the graph, and raises [NetworkXError] otherwise; it leaves the graph
    as it is. *)
Theorem check_prev_cc_iff prev_cc G :
  (check_prev_cc (Some prev_cc) G = (G, Ok tt)
   ↔ dom prev_cc = Graph.nodes G) ∧
  (check_prev_cc (Some prev_cc) G = (G, Raise NetworkXError)
   ↔ dom prev_cc ≠ Graph.nodes G).
Proof.
  destruct (decide (dom prev_cc = Graph.nodes G)) as [Heq|Hne].
  - rewrite check_prev_cc_keys by done. split; split; done.
  - rewrite check_prev_cc_stale by done. split; split; done.
Qed.

(** The call that passes every check returns a dictionary. *)
Lemma incremental_accepted_Ok G (u v : node) (prev_cc : option (gmap node Q))
    (insertion normalized : bool) :
  Graph.wf G →
  Graph.directed G = false →
  (∀ p, prev_cc = Some p → dom p = Graph.nodes G) →
  (if insertion then u ∈ Graph.nodes G ∧ v ∈ Graph.nodes G
   else Graph.has_edge G u v = true) →
  ∃ G_exit out,
    incremental_closeness_centrality (u, v) prev_cc insertion normalized G
    = (G_exit, Ok (PyDict out)).
Proof.
  intros Hwf Hd Hkeys Hok.
  assert (∃ G_prime, apply_change G (u, v) insertion = Ok G_prime)
    as [G_prime Hchange].
  { unfold apply_change. simpl. destruct insertion; [by eexists|].
    by apply remove_edge_Ok. }
  destruct prev_cc as [p|].
  + apply (incremental_returns G (u, v) p insertion normalized G_prime);
      try done; [by apply Hkeys|]. intros ->. done.
  + unfold apply_change in Hchange. simpl in Hchange.
    exists G_prime. destruct insertion.
    * injection Hchange as <-. destruct Hok as [Hu Hv].
      rewrite (incremental_no_prev u v true normalized G _ _ _ Hd
        (measure_insertion u v G Hu Hv)).
      rewrite closeness_centrality_dict. by eexists.
    * rewrite (incremental_no_prev u v false normalized G _ _ _ Hd
        (measure_deletion u v G G_prime Hwf Hchange)).
      rewrite closeness_centrality_dict. by eexists.
Qed.

(** X3.  On a well-formed graph the incremental update returns (a
    dictionary) exactly when the graph is undirected, the previous result,
    if there is one, is keyed by the nodes, and the graph accepts the
    change: both endpoints are nodes for an insertion, the edge is present
    for a deletion. *)
Theorem incremental_returns_iff G u v prev_cc insertion normalized :
  Graph.wf G →
  (∃ G_exit out,
     incremental_closeness_centrality (u, v) prev_cc insertion normalized G
     = (G_exit, Ok (PyDict out)))
  ↔ (Graph.directed G = false ∧
     (∀ p, prev_cc = Some p → dom p = Graph.nodes G) ∧
     (if insertion then u ∈ Graph.nodes G ∧ v ∈ Graph.nodes G
      else Graph.has_edge G u v = true)).
Proof.
  intros Hwf. split.
  - intros (G_exit & out & Hrun).
    destruct (Graph.directed G) eqn:Hd.
    { by rewrite incremental_directed in Hrun. }
    split; [done|].
    assert (Hkeys : ∀ p, prev_cc = Some p → dom p = Graph.nodes G).
    { intros p ->. destruct (decide (dom p = Graph.nodes G)); [done|].
      by rewrite incremental_stale in Hrun. }
    split; [done|].
    destruct (measure_and_apply u v insertion G) as [G1 [[du dv]|e]] eqn:Hm.
    + destruct (measure_and_apply_Ok _ _ _ _ _ _ _ Hm)
        as (Hchange & _ & Hu & Hv & _ & _).
      destruct insertion; [done|].
      by apply (remove_edge_has_edge G G1 u v).
    + by rewrite (incremental_not_applied u v prev_cc insertion normalized
        G G1 e) in Hrun.
  - intros (Hd & Hkeys & Hok). by apply incremental_accepted_Ok.
Qed.

Lemma incremental_returns_iff_witness :
  (∃ G_exit out,
     incremental_closeness_centrality (2, 3) None false true path_graph_5
     = (G_exit, Ok (PyDict out)))
  ↔ (Graph.directed path_graph_5 = false ∧
     (∀ p, @None (gmap nat Q) = Some p → dom p = Graph.nodes path_graph_5) ∧
     Graph.has_edge path_graph_5 2 3 = true).
Proof.
  apply (incremental_returns_iff path_graph_5 2 3 None false true).
  apply (bool_decide_unpack _). vm_compute. exact I.
Defined.

(** X4.  When the incremental update raises on a well-formed graph, the
    graph is left exactly as it was, and the exception is the one of the
    first failing step: [NetworkXNotImplemented] for a directed graph,
    else [NetworkXError] for a previous result not keyed by the nodes,
    else [NodeNotFound] for an insertion with an endpoint that is not a
    node, or [NetworkXError] for the deletion of a missing edge.  The
    subscript [prev_cc[n]] never raises [KeyError]. *)
Theorem incremental_raises G u v prev_cc insertion normalized G_exit e :
  Graph.wf G →
  incremental_closeness_centrality (u, v) prev_cc insertion normalized G
  = (G_exit, Raise e) →
  G_exit = G ∧
  ((Graph.directed G = true ∧ e = NetworkXNotImplemented) ∨
   (Graph.directed G = false ∧
    (∃ p, prev_cc = Some p ∧ dom p ≠ Graph.nodes G) ∧ e = NetworkXError) ∨
   (Graph.directed G = false ∧
    (∀ p, prev_cc = Some p → dom p = Graph.nodes G) ∧
    insertion = true ∧ (u ∉ Graph.nodes G ∨ v ∉ Graph.nodes G) ∧
    e = NodeNotFound) ∨
   (Graph.directed G = false ∧
    (∀ p, prev_cc = Some p → dom p = Graph.nodes G) ∧
    insertion = false ∧ Graph.has_edge G u v = false ∧
    e = NetworkXError)).
Proof.
  intros Hwf Hrun.
  destruct (Graph.directed G) eqn:Hd.
  { rewrite incremental_directed in Hrun by done.
    injection Hrun as <- <-. auto. }
  assert ((∀ p, prev_cc = Some p → dom p = Graph.nodes G) ∨
          (∃ p, prev_cc = Some p ∧ dom p ≠ Graph.nodes G)) as [Hkeys|Hstale].
  { destruct prev_cc as [p|]; [|by left].
    destruct (decide (dom p = Graph.nodes G)); [left|right; eauto].
    by intros ? [= <-]. }
  2:{ destruct Hstale as (p & -> & Hne).
      rewrite incremental_stale in Hrun by done.
      injection Hrun as <- <-. split; [done|]. right. left. eauto. }
  pose proof (incremental_accepted_Ok G u v prev_cc insertion normalized
    Hwf Hd Hkeys) as Hret.
  destruct insertion.
  - destruct (decide (u ∈ Graph.nodes G ∧ v ∈ Graph.nodes G)) as [Huv|Huv].
    { destruct Hret as (? & ? & Hok); [done|]. congruence. }
    assert (u ∉ Graph.nodes G ∨ v ∉ Graph.nodes G) as Hmiss.
    { destruct (decide (u ∈ Graph.nodes G)); [|by left].
      right. intros ?. by apply Huv. }
    rewrite (incremental_not_applied u v prev_cc true normalized G G
      NodeNotFound Hd Hkeys (measure_insertion_missing u v G Hmiss)) in Hrun.
    injection Hrun as <- <-. split; [done|]. do 2 right. left. auto.
  - destruct (Graph.has_edge G u v) eqn:Huv.
    { destruct Hret as (? & ? & Hok); [done|]. congruence. }
    rewrite (incremental_not_applied u v prev_cc false normalized G G
      NetworkXError Hd Hkeys (measure_deletion_missing u v G Huv)) in Hrun.
    injection Hrun as <- <-. split; [done|]. do 3 right. auto.
Qed.

Lemma incremental_raises_witness :
  path_graph_3 = path_graph_3 ∧
  ((Graph.directed path_graph_3 = true ∧ NetworkXError = NetworkXNotImplemented) ∨
   (Graph.directed path_graph_3 = false ∧
    (∃ p, @None (gmap node Q) = Some p ∧ dom p ≠ Graph.nodes path_graph_3) ∧
    NetworkXError = NetworkXError) ∨
   (Graph.directed path_graph_3 = false ∧
    (∀ p, @None (gmap node Q) = Some p → dom p = Graph.nodes path_graph_3) ∧
    false = true ∧ (1 ∉ Graph.nodes path_graph_3 ∨ 3 ∉ Graph.nodes path_graph_3) ∧
    NetworkXError = NodeNotFound) ∨
   (Graph.directed path_graph_3 = false ∧
    (∀ p, @None (gmap node Q) = Some p → dom p = Graph.nodes path_graph_3) ∧
    false = false ∧ Graph.has_edge path_graph_3 1 3 = false ∧
    NetworkXError = NetworkXError)).
Proof.
  apply (incremental_raises path_graph_3 1 3 None false true
           path_graph_3 NetworkXError).
  - apply (bool_decide_unpack _). vm_compute. exact I.
  - vm_compute. reflexivity.
Defined.
Lemma do_revert_frame (u v : node) (insertion : bool) (G1 : Graph) :
  u ∈ Graph.nodes G1 → v ∈ Graph.nodes G1 →
  Graph.nodes ((if insertion then do_remove_edge u v else do_add_edge u v) G1).1
  = Graph.nodes G1 ∧
  Graph.directed
    ((if insertion then do_remove_edge u v else do_add_edge u v) G1).1
  = Graph.directed G1.
Proof.
  intros Hu Hv. destruct insertion.
  - unfold do_remove_edge.
    destruct (Graph.remove_edge G1 u v) as [G2|e] eqn:Hrm; [|done].
    split; [by apply (remove_edge_nodes G1 G2 u v)
           |by apply (remove_edge_directed G1 G2 u v)].
  - unfold do_add_edge. simpl. split; [|done]. by apply add_edge_nodes.
Qed.

(** X5.  No call of the incremental update, whatever its arguments and
    whether it returns or raises, adds or removes a node or changes the
    kind (directed or not) of the graph. *)
Theorem incremental_keeps_nodes G edge prev_cc insertion normalized :
  Graph.nodes
    (incremental_closeness_centrality edge prev_cc insertion normalized G).1
  = Graph.nodes G ∧
  Graph.directed
    (incremental_closeness_centrality edge prev_cc insertion normalized G).1
  = Graph.directed G.
Proof.
  destruct edge as [u v].
  destruct (Graph.directed G) eqn:Hd.
  { by rewrite incremental_directed. }
  assert ((∀ p, prev_cc = Some p → dom p = Graph.nodes G) ∨
          (∃ p, prev_cc = Some p ∧ dom p ≠ Graph.nodes G)) as [Hkeys|Hstale].
  { destruct prev_cc as [p|]; [|by left].
    destruct (decide (dom p = Graph.nodes G)); [left|right; eauto].
    by intros ? [= <-]. }
  2:{ destruct Hstale as (p & -> & Hne). by rewrite incremental_stale. }
  pose proof (measure_and_apply_frame u v insertion G) as [Hnodes Hdir].
  destruct (measure_and_apply u v insertion G) as [G1 [[du dv]|e]] eqn:Hm;
    simpl in Hnodes, Hdir.
  2:{ rewrite (incremental_not_applied u v prev_cc insertion normalized
        G G1 e); try done. simpl. by rewrite Hdir. }
  destruct prev_cc as [p|].
  - rewrite (incremental_with_prev u v p insertion normalized G G1 du dv);
      try done; [|by apply Hkeys].
    destruct (measure_and_apply_Ok _ _ _ _ _ _ _ Hm)
      as (_ & _ & Hu & Hv & _ & _).
    rewrite <-Hnodes in Hu, Hv.
    pose proof (do_revert_frame u v insertion G1 Hu Hv) as [Hn2 Hd2].
    destruct ((if insertion then do_remove_edge u v else do_add_edge u v) G1)
      as [G2 [[]|e]]; simpl in *; by rewrite Hn2, Hd2, Hnodes, Hdir.
  - rewrite (incremental_no_prev u v insertion normalized G G1 du dv);
      try done. simpl. by rewrite Hdir.
Qed.

(** X6.  With a previous result keyed by the nodes, the insertion of an
    edge that the undirected graph does not have, between two of its
    nodes, returns with the graph exactly as it was at call entry: nodes,
    edges and edge attributes. *)
Theorem incremental_insertion_restores G u v prev_cc normalized :
  Graph.directed G = false →
  dom prev_cc = Graph.nodes G →
  u ∈ Graph.nodes G → v ∈ Graph.nodes G →
  Graph.has_edge G u v = false →
  ∃ out,
    incremental_closeness_centrality (u, v) (Some prev_cc) true normalized G
    = (G, Ok (PyDict out)).
Proof.
  intros Hd Hdom Hu Hv Huv.
  rewrite (incremental_with_prev u v prev_cc true normalized G
    (Graph.add_edge G u v) _ _ Hd Hdom (measure_insertion u v G Hu Hv)
    (add_edge_nodes G u v Hu Hv)).
  unfold do_remove_edge. rewrite remove_add_edge by done. by eexists.
Qed.

Lemma incremental_insertion_restores_witness :
  ∃ out,
    incremental_closeness_centrality (1, 2) (Some zeros_3) true false
      (Graph.mk false {[1; 2; 3]} {[(2, 3) := {["weight" := Num 5]}]})
    = (Graph.mk false {[1; 2; 3]} {[(2, 3) := {["weight" := Num 5]}]},
       Ok (PyDict out)).
Proof.
  apply (incremental_insertion_restores
           (Graph.mk false {[1; 2; 3]} {[(2, 3) := {["weight" := Num 5]}]})
           1 2 zeros_3 false).
  - reflexivity.
  - by vm_compute.
  - by vm_compute.
  - by vm_compute.
  - by vm_compute.
Defined.

(** X7.  With a previous result keyed by the nodes, the deletion of an
    edge of an undirected graph returns with the edge back in the graph,
    and the same edge set, but without its attributes: the revert calls
    [add_edge(u, v)] alone, so the edge comes back with an empty attribute
    dictionary, whatever weight it carried.  The other edges keep their
    attributes. *)
Theorem incremental_deletion_drops_attributes G u v prev_cc normalized :
  Graph.wf G →
  Graph.directed G = false →
  dom prev_cc = Graph.nodes G →
  Graph.has_edge G u v = true →
  ∃ G_exit out,
    incremental_closeness_centrality (u, v) (Some prev_cc) false normalized G
    = (G_exit, Ok (PyDict out)) ∧
    Graph.edge_set G_exit = Graph.edge_set G ∧
    edge_attributes G_exit u v = Some ∅ ∧
    ∀ a b, (a, b) ≠ (u, v) → (a, b) ≠ (v, u) →
      edge_attributes G_exit a b = edge_attributes G a b.
Proof.
  intros Hwf Hd Hdom Huv.
  destruct (remove_edge_Ok G u v Huv) as [G1 Hrm].
  rewrite (incremental_with_prev u v prev_cc false normalized G G1
    _ _ Hd Hdom (measure_deletion u v G G1 Hwf Hrm)
    (remove_edge_nodes G G1 u v Hrm)).
  unfold do_add_edge. eexists _, _. split; [done|].
  split; [by apply add_remove_edge_edge_set|].
  pose proof (remove_edge_gone G G1 u v Hrm Hd) as Hgone.
  unfold Graph.add_edge. rewrite Hgone.
  rewrite (remove_edge_eq G G1 u v Hrm), Hd. simpl. split.
  - unfold edge_attributes. simpl. by rewrite lookup_insert_eq.
  - intros a b H1 H2.
    assert ((b, a) ≠ (u, v)) by (intros [= -> ->]; done).
    assert ((b, a) ≠ (v, u)) by (intros [= -> ->]; done).
    unfold edge_attributes. simpl. rewrite Hd.
    by rewrite !lookup_insert_ne, !lookup_delete_ne by done.
Qed.

Lemma incremental_deletion_drops_attributes_witness :
  ∃ G_exit out,
    incremental_closeness_centrality (1, 2)
      (Some (closeness_dict weighted_pair true)) false true weighted_pair
    = (G_exit, Ok (PyDict out)) ∧
    Graph.edge_set G_exit = Graph.edge_set weighted_pair ∧
    edge_attributes G_exit 1 2 = Some ∅ ∧
    ∀ a b, (a, b) ≠ (1, 2) → (a, b) ≠ (2, 1) →
      edge_attributes G_exit a b = edge_attributes weighted_pair a b.
Proof.
  apply (incremental_deletion_drops_attributes weighted_pair 1 2).
  - apply (bool_decide_unpack _). vm_compute. exact I.
  - reflexivity.
  - by vm_compute.
  - by vm_compute.
Defined.



(** X9.  The incremental update keeps the range of the values: on a
    well-formed graph, when every value of the previous result is between
    0 and 1, so is every value of the dictionary the call returns. *)
Theorem incremental_range G edge prev_cc insertion normalized G_exit out :
  Graph.wf G →
  (∀ n c, prev_cc !! n = Some c → (0 <= c)%Q ∧ (c <= 1)%Q) →
  incremental_closeness_centrality edge (Some prev_cc) insertion normalized G
  = (G_exit, Ok (PyDict out)) →
  ∀ n c, out !! n = Some c → (0 <= c)%Q ∧ (c <= 1)%Q.
Proof.
  destruct edge as [u v]. intros Hwf Hprev Hrun.
  destruct (Graph.directed G) eqn:Hd.
  { by rewrite incremental_directed in Hrun. }
  destruct (decide (dom prev_cc = Graph.nodes G)) as [Hdom|Hdom];
    [|by rewrite incremental_stale in Hrun].
  destruct (measure_and_apply u v insertion G) as [G1 [[du dv]|e]] eqn:Hm.
  2:{ rewrite (incremental_not_applied u v (Some prev_cc) insertion normalized
        G G1 e) in Hrun; try done. by intros p [= <-]. }
  destruct (measure_and_apply_Ok _ _ _ _ _ _ _ Hm)
    as (Hchange & Hnodes & Hu & Hv & _ & _).
  assert (Hwf1 : Graph.wf G1).
  { unfold apply_change in Hchange. simpl in Hchange. destruct insertion.
    - injection Hchange as <-. by apply add_edge_wf.
    - by apply (remove_edge_wf G G1 u v). }
  rewrite (incremental_with_prev u v prev_cc insertion normalized G G1 du dv)
    in Hrun; try done.
  destruct ((if insertion then do_remove_edge u v else do_add_edge u v) G1)
    as [G2 [[]|e]]; [|done].
  injection Hrun as _ <-. intros n c.
  rewrite lookup_fill_elements. destruct (decide (n ∈ Graph.nodes G1)); [|done].
  intros [= <-]. unfold incremental_value.
  destruct (unaffected du dv n).
  - destruct (prev_cc !! n) as [c|] eqn:Hc; [by apply (Hprev n)|].
    simpl. split; [apply Qle_refl | done].
  - split; [apply closeness_value_nonneg|].
    apply closeness_value_hops_le_1;
      [by apply bfs_size_le_sum_hops | by apply bfs_size_le_len].
Qed.

Lemma incremental_range_witness :
  (0 <= 4 # 4)%Q ∧ (4 # 4 <= 1)%Q.
Proof.
  apply (incremental_range path_graph_3 (1, 3)
           (closeness_dict path_graph_3 true) true true path_graph_3
           (closeness_dict (Graph.add_edge path_graph_3 1 3) true))
    with (n := 2).
  - apply (bool_decide_unpack _). vm_compute. exact I.
  - intros n c Hc.
    assert (Hin : (n, c) ∈ map_to_list (closeness_dict path_graph_3 true))
      by by apply elem_of_map_to_list.
    vm_compute in Hin.
    repeat (apply elem_of_cons in Hin as [[= -> ->]|Hin];
            [by vm_compute|]).
    by apply elem_of_nil in Hin.
  - vm_compute. reflexivity.
  - vm_compute. reflexivity.
Defined.

(** *** The Wasserman-Faust factor *)

Lemma closeness_value_wf_connected sp N :
  size sp = N →
  (closeness_value sp N true == closeness_value sp N false)%Q.
Proof.
  intros Hsz. unfold closeness_value.
  destruct (Qltb 0 (sum_values sp) && (1 <? N)) eqn:Hc; [|reflexivity].
  apply andb_true_iff in Hc as [_ HN%Nat.ltb_lt]. rewrite Hsz.
  pose proof (Qnat_pred_pos N HN) as Hpos.
  assert (Hone : ((Qnat N - 1) / (Qnat N - 1) == 1)%Q).
  { apply Qmult_inv_r. intros Hz. rewrite Hz in Hpos.
    by apply Qlt_irrefl in Hpos. }
  rewrite Hone. apply Qmult_1_r.
Qed.

Lemma closeness_value_wf_le sp N :
  size sp ≤ N →
  (closeness_value sp N true <= closeness_value sp N false)%Q.
Proof.
  intros Hsz. unfold closeness_value.
  destruct (Qltb 0 (sum_values sp) && (1 <? N)) eqn:Hc; [|apply Qle_refl].
  apply andb_true_iff in Hc as [Htot%Qltb_true HN%Nat.ltb_lt].
  assert (Hone : 1 ≤ size sp).
  { destruct (decide (size sp = 0)) as [Hz|?]; [|lia].
    apply map_size_empty_iff in Hz. subst sp.
    rewrite sum_values_empty in Htot. by apply Qlt_irrefl in Htot. }
  pose proof (Qnat_pred_nonneg _ Hone). pose proof (Qnat_pred_pos _ HN).
  pose proof (Qnat_pred_mono _ _ Hsz).
  set (c := ((Qnat (size sp) - 1) / sum_values sp)%Q).
  assert (0 <= c)%Q by by apply Qdiv_nonneg.
  apply Qle_trans with (c * 1)%Q; [|rewrite Qmult_1_r; apply Qle_refl].
  rewrite !(Qmult_comm c). apply Qmult_le_compat_r; [|done].
  by apply Qdiv_le_1.
Qed.

Lemma distance_map_size distance G n :
  Graph.wf G → n ∈ Graph.nodes G →
  size (distance_map distance G n) ≤ Graph.len G.
Proof.
  intros Hwf Hn. rewrite <-size_dom. unfold Graph.len. apply subseteq_size.
  destruct distance as [w|]; simpl.
  - destruct (dijkstra w G n) as [sp|e] eqn:Hsp; [|set_solver].
    by apply (dijkstra_dom w G n).
  - rewrite dom_fmap. by apply bfs_dom.
Qed.

(** A distance map that is not empty is what the oracle returned. *)
Lemma distance_map_returned distance G n :
  n ∈ Graph.nodes G →
  distance_map distance G n ≠ ∅ →
  match distance with
  | Some w => single_source_dijkstra_path_length w
  | None => single_source_shortest_path_length
  end G n = Ok (distance_map distance G n).
Proof.
  intros Hn Hne. destruct distance as [w|]; simpl in *;
    unfold single_source_dijkstra_path_length,
      single_source_shortest_path_length; rewrite decide_True by done;
    [|done].
  by destruct (dijkstra w G n).
Qed.

(** X10.  "For single component graphs it is the same as the original
    formula": for a node whose distance map holds every node of the graph,
    the value with the Wasserman-Faust factor and the value without it are
    equal, in either distance mode. *)
Theorem wf_improved_connected G n distance :
  n ∈ Graph.nodes G →
  size (distance_map distance (closeness_view G) n) = Graph.len G →
  ∃ c c',
    closeness_centrality G (Some n) distance true = Ok (PyFloat c) ∧
    closeness_centrality G (Some n) distance false = Ok (PyFloat c') ∧
    (c == c')%Q.
Proof.
  intros Hn Hall.
  assert (Horacle : match distance with
                    | Some w => single_source_dijkstra_path_length w
                    | None => single_source_shortest_path_length
                    end (closeness_view G) n
                    = Ok (distance_map distance (closeness_view G) n)).
  { apply distance_map_returned; [by rewrite closeness_view_nodes|].
    intros Hempty. rewrite Hempty, map_size_empty in Hall.
    symmetry in Hall. unfold Graph.len in Hall.
    apply size_empty_iff in Hall. set_solver. }
  eexists _, _.
  split; [by apply closeness_centrality_node_returns|].
  split; [by apply closeness_centrality_node_returns|].
  by apply closeness_value_wf_connected.
Qed.

Lemma wf_improved_connected_witness :
  ∃ c c',
    closeness_centrality path_graph_5 (Some 1) None true = Ok (PyFloat c) ∧
    closeness_centrality path_graph_5 (Some 1) None false = Ok (PyFloat c') ∧
    (c == c')%Q.
Proof.
  apply (wf_improved_connected path_graph_5 1 None).
  - by vm_compute.
  - by vm_compute.
Defined.

(** X11.  "Nodes from small components receive a smaller closeness
    value": for every node of a well-formed graph, in either distance
    mode (with weights that are numbers and not negative), the value with
    the Wasserman-Faust factor is at most the value without it. *)
Theorem wf_improved_smaller G n distance :
  Graph.wf G → n ∈ Graph.nodes G →
  weights_ok distance G →
  ∃ c c',
    closeness_centrality G (Some n) distance true = Ok (PyFloat c) ∧
    closeness_centrality G (Some n) distance false = Ok (PyFloat c') ∧
    (c <= c')%Q.
Proof.
  intros Hwf Hn Hok. eexists _, _.
  split; [apply closeness_centrality_node_weights; auto|].
  split; [apply closeness_centrality_node_weights; auto|].
  apply closeness_value_wf_le. rewrite <-closeness_view_len.
  apply distance_map_size; [by apply closeness_view_wf|].
  by rewrite closeness_view_nodes.
Qed.

Lemma wf_improved_smaller_witness :
  ∃ c c',
    closeness_centrality weighted_pair (Some 1) (Some "weight") true
      = Ok (PyFloat c) ∧
    closeness_centrality weighted_pair (Some 1) (Some "weight") false
      = Ok (PyFloat c') ∧
    (c <= c')%Q.
Proof.
  apply (wf_improved_smaller weighted_pair 1 (Some "weight")).
  - apply (bool_decide_unpack _). vm_compute. exact I.
  - by vm_compute.
  - apply (bool_decide_unpack _). vm_compute. exact I.
Defined.

(** *** Directed graphs *)

Lemma bfs_no_neighbour G n :
  Graph.wf G → n ∈ Graph.nodes G → Graph.adj G n = ∅ → bfs G n = {[n := 0]}.
Proof.
  intros Hwf Hn Hadj. apply map_eq. intros t. apply option_eq.
  intros d. rewrite bfs_lookup_distance, lookup_singleton_Some by done. split.
  - intros [Hw _]. apply walk_first in Hw as [[-> ->]|(a & k' & _ & Ha & _)];
      [done|]. rewrite Hadj in Ha. by apply not_elem_of_empty in Ha.
  - intros [<- <-]. apply distance_self.
Qed.

Lemma reverse_no_incoming_adj G n :
  Graph.directed G = true → no_incoming G n →
  Graph.adj (Graph.reverse G) n = ∅.
Proof.
  intros Hd Hn. apply set_eq. intros b.
  rewrite elem_of_adj, elem_of_edge_set. simpl. rewrite Hd.
  rewrite dom_kmap_L by apply _.
  split; [|by intros ?%not_elem_of_empty].
  intros [[[x y] [[= -> ->] Hxy]]%elem_of_map|[[=] _]].
  apply Hn in Hxy. done.
Qed.

(** X12.  For a directed graph the distances are those of the paths that
    lead to the node: a node that no edge points to has centrality 0, in
    either distance mode and with either flag, whatever edges leave it. *)
Theorem closeness_no_incoming G n distance wf_improved :
  Graph.wf G → Graph.directed G = true → n ∈ Graph.nodes G →
  no_incoming G n →
  closeness_centrality G (Some n) distance wf_improved = Ok (PyFloat 0%Q).
Proof.
  intros Hwf Hd Hn Hin.
  assert (Hadj : Graph.adj (closeness_view G) n = ∅).
  { unfold closeness_view. rewrite Hd. by apply reverse_no_incoming_adj. }
  rewrite closeness_centrality_node_weights by auto.
  do 2 f_equal. apply closeness_value_no_distance.
  assert (distance_map distance (closeness_view G) n = {[n := 0%Q]}) as ->;
    [|by rewrite sum_values_source].
  destruct distance as [w|]; simpl.
  - by rewrite dijkstra_no_neighbour.
  - rewrite bfs_no_neighbour, map_fmap_singleton; try done.
    + by apply closeness_view_wf.
    + by rewrite closeness_view_nodes.
Qed.

Lemma closeness_no_incoming_witness :
  closeness_centrality directed_pair (Some 1) (Some "weight") true
  = Ok (PyFloat 0%Q).
Proof.
  apply (closeness_no_incoming directed_pair 1 (Some "weight") true).
  - apply (bool_decide_unpack _). vm_compute. exact I.
  - reflexivity.
  - by vm_compute.
  - intros e He.
    assert (Hin : e ∈ elements (dom (Graph.edges directed_pair)))
      by by apply elem_of_elements.
    vm_compute in Hin.
    apply elem_of_cons in Hin as [->|Hin]; [by vm_compute|].
    by apply elem_of_nil in Hin.
Defined.
(** *** What the hop-count mode reads of the graph *)

Lemma bfs_edge_set_ext G H s :
  Graph.wf G → Graph.wf H → s ∈ Graph.nodes G → s ∈ Graph.nodes H →
  Graph.edge_set G = Graph.edge_set H →
  bfs G s = bfs H s.
Proof.
  intros HwfG HwfH HsG HsH Heq. apply bfs_ext; try done.
  assert (HGH : Graph.edge_set G ⊆ Graph.edge_set H) by by rewrite Heq.
  assert (HHG : Graph.edge_set H ⊆ Graph.edge_set G) by by rewrite Heq.
  intros t d. split; intros [Hw Hmin]; split;
    try (by eapply walk_mono); intros j Hj; apply Hmin; by eapply walk_mono.
Qed.

Lemma closeness_view_edge_set G H :
  Graph.directed G = Graph.directed H →
  Graph.edge_set G = Graph.edge_set H →
  Graph.edge_set (closeness_view G) = Graph.edge_set (closeness_view H).
Proof.
  intros Hd Heq. unfold closeness_view. rewrite <-Hd.
  destruct (Graph.directed G) eqn:HdG; [|done].
  unfold Graph.edge_set in *. simpl. rewrite <-Hd, HdG in *.
  rewrite !dom_kmap_L by apply _. by rewrite Heq.
Qed.

(** X13.  Without the [distance] argument the result depends on the nodes
    and on the edge set alone: two well-formed graphs of the same kind
    with the same nodes and the same edge set, whatever attributes their
    edges carry, get the same result, for every [u] and either flag. *)
Theorem closeness_ignores_attributes G H u wf_improved :
  Graph.wf G → Graph.wf H →
  Graph.directed G = Graph.directed H →
  Graph.nodes G = Graph.nodes H →
  Graph.edge_set G = Graph.edge_set H →
  closeness_centrality G u None wf_improved
  = closeness_centrality H u None wf_improved.
Proof.
  intros HwfG HwfH Hd Hnodes Hedges.
  pose proof (closeness_view_edge_set G H Hd Hedges) as Hview.
  assert (Hbfs : ∀ n, n ∈ Graph.nodes G →
    bfs (closeness_view G) n = bfs (closeness_view H) n).
  { intros n Hn. apply bfs_edge_set_ext; try done;
      try (by apply closeness_view_wf); rewrite closeness_view_nodes;
      [done | by rewrite <-Hnodes]. }
  assert (Hlen : Graph.len G = Graph.len H)
    by (unfold Graph.len; by rewrite Hnodes).
  destruct u as [n|].
  - destruct (decide (n ∈ Graph.nodes G)) as [Hn|Hn].
    + rewrite !closeness_centrality_node by (by rewrite <-?Hnodes).
      simpl. by rewrite Hbfs, Hlen.
    + by rewrite !closeness_centrality_node_missing by (by rewrite <-?Hnodes).
  - rewrite !closeness_centrality_dict. rewrite <-Hnodes, <-Hlen.
    do 2 f_equal. apply fill_ext. intros n Hn. simpl. by rewrite Hbfs.
Qed.

Lemma closeness_ignores_attributes_witness :
  closeness_centrality weighted_pair None None true
  = closeness_centrality (undirected_graph [1; 2] [(2, 1)]) None None true.
Proof.
  apply (closeness_ignores_attributes weighted_pair
           (undirected_graph [1; 2] [(2, 1)]) None true).
  - apply (bool_decide_unpack _). vm_compute. exact I.
  - apply (bool_decide_unpack _). vm_compute. exact I.
  - reflexivity.
  - by vm_compute.
  - by vm_compute.
Defined.
(** *** Which previous values matter, and chains of updates *)

(** The call with a previous result keyed by the nodes and a change that
    the graph accepts, in full. *)
Lemma incremental_accepted G u v prev_cc insertion normalized G_prime :
  Graph.wf G →
  Graph.directed G = false →
  dom prev_cc = Graph.nodes G →
  (insertion = true → u ∈ Graph.nodes G ∧ v ∈ Graph.nodes G) →
  apply_change G (u, v) insertion = Ok G_prime →
  ∃ G_exit du dv,
    incremental_closeness_centrality (u, v) (Some prev_cc) insertion normalized G
    = (G_exit,
       Ok (PyDict (fill (incremental_value prev_cc du dv normalized G_prime) ∅
                     (elements (Graph.nodes G))))) ∧
    measure_and_apply u v insertion G = (G_prime, Ok (du, dv)) ∧
    (Graph.wf G_prime ∧ Graph.directed G_prime = false ∧
     Graph.nodes G_prime = Graph.nodes G) ∧
    (∀ n, n ∈ Graph.nodes G → unaffected du dv n = true →
       bfs G n = bfs G_prime n) ∧
    (if insertion then Graph.remove_edge G_prime u v = Ok G_exit
     else G_exit = Graph.add_edge G_prime u v).
Proof.
  intros Hwf Hd Hdom Hins Hchange.
  unfold apply_change in Hchange. simpl in Hchange. destruct insertion.
  - injection Hchange as <-. destruct Hins as [Hu Hv]; [done|].
    pose proof (add_edge_nodes G u v Hu Hv) as Hnodes.
    assert (Hin : Graph.has_edge (Graph.add_edge G u v) u v = true).
    { apply has_edge_true, elem_of_edge_set_add_edge; auto. }
    destruct (remove_edge_Ok _ _ _ Hin) as [G_exit Hrm].
    exists G_exit, (Qnat <$> bfs G u), (Qnat <$> bfs G v).
    rewrite (incremental_with_prev u v prev_cc true normalized G
      (Graph.add_edge G u v) _ _ Hd Hdom (measure_insertion u v G Hu Hv) Hnodes).
    unfold do_remove_edge. rewrite Hrm, Hnodes.
    split; [done|]. split; [by apply measure_insertion|].
    split; [split; [by apply add_edge_wf | done]|]. split; [|done].
    intros n Hn Hun.
    apply (unaffected_same_search G (Graph.add_edge G u v) u v n); try done.
    + by apply add_edge_wf.
    + by apply add_edge_edge_set_sub.
    + intros x y. by rewrite elem_of_edge_set_add_edge.
  - pose proof (remove_edge_nodes G G_prime u v Hchange) as Hnodes.
    pose proof (remove_edge_directed G G_prime u v Hchange) as Hd'.
    rewrite Hd in Hd'.
    pose proof (remove_edge_wf G G_prime u v Hchange Hwf) as Hwf'.
    destruct (has_edge_nodes G u v Hwf (remove_edge_has_edge G G_prime u v Hchange))
      as [Hu Hv].
    exists (Graph.add_edge G_prime u v),
      (Qnat <$> bfs G_prime u), (Qnat <$> bfs G_prime v).
    rewrite (incremental_with_prev u v prev_cc false normalized G G_prime
      _ _ Hd Hdom (measure_deletion u v G G_prime Hwf Hchange) Hnodes).
    unfold do_add_edge. rewrite Hnodes.
    split; [done|]. split; [by apply measure_deletion|].
    split; [done|]. split; [|done].
    intros n Hn Hun. symmetry.
    apply (unaffected_same_search G_prime G u v n); try done;
      try (by rewrite Hnodes).
    + by apply (remove_edge_edge_set_sub G G_prime u v).
    + intros x y Hxy.
      rewrite (elem_of_edge_set_remove_edge G G_prime u v) by done.
      destruct (decide (x = u ∧ y = v)); [tauto|].
      destruct (decide (x = v ∧ y = u)); [tauto|]. left. tauto.
Qed.

(** X14.  The previous result is read at the nodes that pass the distance
    test, and nowhere else.  For a previous result keyed by the nodes and a
    change that the graph accepts, the returned value of a node is the
    batch value on the changed graph exactly when the node fails the test
    or its previous value is the batch value on the graph before the
    change. *)
Theorem incremental_exact_iff
    G u v prev_cc insertion normalized G_prime batch batch' :
  Graph.wf G →
  Graph.directed G = false →
  dom prev_cc = Graph.nodes G →
  (insertion = true → u ∈ Graph.nodes G ∧ v ∈ Graph.nodes G) →
  apply_change G (u, v) insertion = Ok G_prime →
  closeness_centrality G None None normalized = Ok (PyDict batch) →
  closeness_centrality G_prime None None normalized = Ok (PyDict batch') →
  ∃ G_exit out du dv,
    incremental_closeness_centrality (u, v) (Some prev_cc) insertion normalized G
    = (G_exit, Ok (PyDict out)) ∧
    measure_and_apply u v insertion G = (G_prime, Ok (du, dv)) ∧
    ∀ n, n ∈ Graph.nodes G →
      (out !! n = batch' !! n
       ↔ (unaffected du dv n = false ∨ prev_cc !! n = batch !! n)).
Proof.
  intros Hwf Hd Hdom Hins Hchange Hbatch Hbatch'.
  destruct (incremental_accepted G u v prev_cc insertion normalized G_prime)
    as (G_exit & du & dv & Hrun & Hm & (Hwf' & Hd' & Hnodes) & Hsame & _);
    try done.
  eexists G_exit, _, du, dv. split; [done|]. split; [done|].
  rewrite closeness_centrality_dict in Hbatch, Hbatch'.
  injection Hbatch as <-. injection Hbatch' as <-.
  rewrite !closeness_view_undirected by done.
  intros n Hn. rewrite Hnodes, !lookup_fill_elements, !decide_True by done.
  assert (Hlen : Graph.len G_prime = Graph.len G)
    by (unfold Graph.len; by rewrite Hnodes).
  unfold incremental_value, distance_map.
  destruct (unaffected du dv n) eqn:Hun.
  - rewrite Hlen, <-(Hsame n Hn Hun).
    assert (is_Some (prev_cc !! n)) as [c Hc]
      by (apply elem_of_dom; by rewrite Hdom).
    rewrite Hc. simpl. split.
    + intros <-. by right.
    + intros [[=]|<-]. done.
  - split; [by left | done].
Qed.

Lemma incremental_exact_iff_witness :
  ∃ G_exit out du dv,
    incremental_closeness_centrality (1, 3) (Some zeros_3) true true path_graph_3
    = (G_exit, Ok (PyDict out)) ∧
    measure_and_apply 1 3 true path_graph_3
    = (Graph.add_edge path_graph_3 1 3, Ok (du, dv)) ∧
    ∀ n, n ∈ Graph.nodes path_graph_3 →
      (out !! n = closeness_dict (Graph.add_edge path_graph_3 1 3) true !! n
       ↔ (unaffected du dv n = false
          ∨ zeros_3 !! n = closeness_dict path_graph_3 true !! n)).
Proof.
  apply (incremental_exact_iff path_graph_3 1 3 zeros_3 true true).
  - apply (bool_decide_unpack _). vm_compute. exact I.
  - reflexivity.
  - by vm_compute.
  - intros _. split; by vm_compute.
  - reflexivity.
  - vm_compute. reflexivity.
  - vm_compute. reflexivity.
Defined.

(** The graph a call with a previous result leaves behind takes the same
    change again, and the outcome has the edge set of the changed graph. *)
Lemma apply_change_again G u v insertion G_prime G_exit G1 :
  Graph.wf G →
  Graph.directed G = false →
  Graph.wf G_prime → Graph.directed G_prime = false →
  Graph.nodes G_prime = Graph.nodes G →
  apply_change G (u, v) insertion = Ok G_prime →
  (insertion = true → u ∈ Graph.nodes G ∧ v ∈ Graph.nodes G) →
  (if insertion then Graph.remove_edge G_prime u v = Ok G_exit
   else G_exit = Graph.add_edge G_prime u v) →
  apply_change G_exit (u, v) insertion = Ok G1 →
  Graph.wf G1 ∧ Graph.directed G1 = false ∧
  Graph.nodes G1 = Graph.nodes G_prime ∧
  Graph.edge_set G1 = Graph.edge_set G_prime.
Proof.
  intros Hwf Hd Hwf' Hd' Hnodes Hchange Hins Hexit Hagain.
  unfold apply_change in *. simpl in *. destruct insertion.
  - injection Hchange as <-. injection Hagain as <-.
    destruct Hins as [Hu Hv]; [done|].
    pose proof (remove_edge_nodes _ _ _ _ Hexit) as Hn.
    pose proof (remove_edge_directed _ _ _ _ Hexit) as Hdx.
    rewrite Hd' in Hdx.
    split; [by apply add_edge_wf, (remove_edge_wf _ _ _ _ Hexit)|].
    split; [done|]. split.
    + rewrite add_edge_nodes; by rewrite Hn, ?Hnodes.
    + apply set_eq. intros [x y].
      rewrite elem_of_edge_set_add_edge by done.
      rewrite (elem_of_edge_set_remove_edge _ _ _ _ Hexit) by done.
      rewrite elem_of_edge_set_add_edge by done.
      destruct (decide (x = u ∧ y = v)); [tauto|].
      destruct (decide (x = v ∧ y = u)); tauto.
  - subst G_exit.
    destruct (has_edge_nodes G u v Hwf (remove_edge_has_edge G G_prime u v Hchange))
      as [Hu Hv].
    rewrite <-Hnodes in Hu, Hv.
    pose proof (remove_edge_nodes _ _ _ _ Hagain) as Hn.
    pose proof (remove_edge_directed _ _ _ _ Hagain) as Hdx.
    simpl in Hdx. rewrite Hd' in Hdx.
    split; [by apply (remove_edge_wf _ _ _ _ Hagain), add_edge_wf|].
    split; [done|]. split.
    + by rewrite Hn, add_edge_nodes.
    + apply set_eq. intros [x y].
      rewrite (elem_of_edge_set_remove_edge _ _ _ _ Hagain) by done.
      rewrite elem_of_edge_set_add_edge by done.
      pose proof (remove_edge_gone G G_prime u v Hchange Hd) as Hgone.
      apply has_edge_false in Hgone.
      assert ((v, u) ∉ Graph.edge_set G_prime).
      { intros ?. apply Hgone. by apply edge_set_sym. }
      split; [intros [[?|[[-> ->]|[-> ->]]] [? ?]]; tauto|].
      intros Hxy. split; [by left|].
      split; intros [-> ->]; done.
Qed.
(** After the batch result, the accepted call gives the batch result of
    the changed graph. *)
Lemma incremental_after_batch G u v insertion normalized prev_cc G_prime :
  Graph.wf G →
  Graph.directed G = false →
  (insertion = true → u ∈ Graph.nodes G ∧ v ∈ Graph.nodes G) →
  apply_change G (u, v) insertion = Ok G_prime →
  closeness_centrality G None None normalized = Ok (PyDict prev_cc) →
  ∃ G_exit out,
    incremental_closeness_centrality (u, v) (Some prev_cc) insertion normalized G
    = (G_exit, Ok (PyDict out)) ∧
    closeness_centrality G_prime None None normalized = Ok (PyDict out) ∧
    (Graph.wf G_prime ∧ Graph.directed G_prime = false ∧
     Graph.nodes G_prime = Graph.nodes G) ∧
    (if insertion then Graph.remove_edge G_prime u v = Ok G_exit
     else G_exit = Graph.add_edge G_prime u v).
Proof.
  intros Hwf Hd Hins Hchange Hprev.
  rewrite closeness_centrality_dict in Hprev. injection Hprev as Hprev.
  rewrite closeness_view_undirected in Hprev by done.
  assert (Hdom : dom prev_cc = Graph.nodes G).
  { rewrite <-Hprev. apply dom_fill_elements. }
  destruct (incremental_accepted G u v prev_cc insertion normalized G_prime)
    as (G_exit & du & dv & Hrun & Hm & (Hwf' & Hd' & Hnodes) & Hsame & Hexit);
    try done.
  eexists G_exit, _. split; [done|]. split; [|done].
  rewrite closeness_centrality_dict, closeness_view_undirected by done.
  rewrite Hnodes. do 2 f_equal. apply fill_ext. intros n Hn.
  unfold incremental_value, distance_map.
  destruct (unaffected du dv n) eqn:Hun; [|done].
  rewrite <-Hprev, lookup_fill_elements, decide_True by done. simpl.
  rewrite (Hsame n Hn Hun). unfold Graph.len. by rewrite Hnodes.
Qed.

(** X15.  Updates can be chained.  When the previous result is the batch
    result of the caller's graph and the call returns, and the caller then
    applies the change to the graph the call left behind, the returned
    dictionary is the batch result of the caller's new graph, which is
    again well-formed and undirected: the next call can take it as its
    previous result. *)
Theorem incremental_chain_step
    G edge insertion normalized prev_cc G_exit out G1 :
  Graph.wf G →
  Graph.directed G = false →
  closeness_centrality G None None normalized = Ok (PyDict prev_cc) →
  incremental_closeness_centrality edge (Some prev_cc) insertion normalized G
  = (G_exit, Ok (PyDict out)) →
  apply_change G_exit edge insertion = Ok G1 →
  Graph.wf G1 ∧ Graph.directed G1 = false ∧
  closeness_centrality G1 None None normalized = Ok (PyDict out).
Proof.
  destruct edge as [u v]. intros Hwf Hd Hprev Hrun Hagain.
  assert (Hdom : dom prev_cc = Graph.nodes G).
  { rewrite closeness_centrality_dict in Hprev. injection Hprev as <-.
    apply dom_fill_elements. }
  destruct (measure_and_apply u v insertion G) as [G_prime [[du dv]|e]] eqn:Hm.
  2:{ rewrite (incremental_not_applied u v (Some prev_cc) insertion normalized
        G G_prime e) in Hrun; try done. by intros p [= <-]. }
  destruct (measure_and_apply_Ok _ _ _ _ _ _ _ Hm)
    as (Hchange & _ & Hu & Hv & _ & _).
  destruct (incremental_after_batch G u v insertion normalized prev_cc G_prime)
    as (G_exit' & out' & Hrun' & Hbatch & (Hwf' & Hd' & Hnodes) & Hexit);
    try done.
  rewrite Hrun in Hrun'. injection Hrun' as <- <-.
  destruct (apply_change_again G u v insertion G_prime G_exit G1)
    as (Hwf1 & Hd1 & Hnodes1 & Hedges1); try done.
  split; [done|]. split; [done|].
  rewrite <-Hbatch, !closeness_centrality_dict.
  rewrite !closeness_view_undirected by done.
  unfold Graph.len. rewrite Hnodes1. do 2 f_equal.
  apply fill_ext. intros n Hn. simpl.
  rewrite (bfs_edge_set_ext G1 G_prime n); try done. by rewrite Hnodes1.
Qed.

Lemma incremental_chain_step_witness :
  Graph.wf (Graph.add_edge path_graph_3 1 3) ∧
  Graph.directed (Graph.add_edge path_graph_3 1 3) = false ∧
  closeness_centrality (Graph.add_edge path_graph_3 1 3) None None true
  = Ok (PyDict (closeness_dict (Graph.add_edge path_graph_3 1 3) true)).
Proof.
  apply (incremental_chain_step path_graph_3 (1, 3) true true
           (closeness_dict path_graph_3 true) path_graph_3).
  - apply (bool_decide_unpack _). vm_compute. exact I.
  - reflexivity.
  - vm_compute. reflexivity.
  - vm_compute. reflexivity.
  - reflexivity.
Defined.
(** *** The direction of the distances *)

Lemma elem_of_edge_set_view G a b :
  (a, b) ∈ Graph.edge_set (closeness_view G) ↔ (b, a) ∈ Graph.edge_set G.
Proof.
  unfold closeness_view. destruct (Graph.directed G) eqn:Hd.
  - unfold Graph.edge_set. simpl. rewrite Hd, dom_kmap_L by apply _.
    rewrite elem_of_map. split.
    + by intros [[x y] [[= -> ->] Hxy]].
    + intros Hba. by exists (b, a).
  - split; by apply edge_set_sym.
Qed.

Lemma walk_view G s t k : walk (closeness_view G) s t k → walk G t s k.
Proof.
  intros Hw. induction Hw as [|t t' k Hw IH Hadj]; [constructor|].
  apply walk_cons with t; [|done].
  by apply elem_of_adj, elem_of_edge_set_view, elem_of_adj.
Qed.

Lemma view_walk G s t k : walk G t s k → walk (closeness_view G) s t k.
Proof.
  intros Hw. induction Hw as [|s s' k Hw IH Hadj]; [constructor|].
  apply walk_cons with s; [|done].
  by apply elem_of_adj, elem_of_edge_set_view, elem_of_adj.
Qed.

Lemma distance_view G s t d :
  hop_distance (closeness_view G) s t d ↔ hop_distance G t s d.
Proof.
  split; intros [Hw Hmin]; split.
  - by apply walk_view.
  - intros j Hj. by apply Hmin, view_walk.
  - by apply view_walk.
  - intros j Hj. by apply Hmin, walk_view.
Qed.

(** X16.  The value of one node is its entry of the dictionary: on a
    graph whose weights under the [distance] attribute, if one is named,
    are numbers that are not negative, the function with [u] returns what
    the call without [u] stores under [u], for either oracle and either
    flag; for a [u] that is not a node, which has no entry, the search
    raises [NodeNotFound]. *)
Theorem closeness_node_is_entry G u distance wf_improved :
  weights_ok distance G →
  ∃ m, closeness_centrality G None distance wf_improved = Ok (PyDict m) ∧
       closeness_centrality G (Some u) distance wf_improved
       = match m !! u with
         | Some c => Ok (PyFloat c)
         | None => Raise NodeNotFound
         end.
Proof.
  intros Hok. eexists. split; [by apply closeness_centrality_dict_weights|].
  rewrite lookup_fill_elements.
  destruct (decide (u ∈ Graph.nodes G)) as [Hu|Hu].
  - apply closeness_centrality_node_weights; auto.
  - by apply closeness_centrality_node_missing.
Qed.

Lemma closeness_node_is_entry_witness :
  ∃ m, closeness_centrality weighted_pair None (Some "weight") true
       = Ok (PyDict m) ∧
       closeness_centrality weighted_pair (Some 2) (Some "weight") true
       = match m !! 2 with
         | Some c => Ok (PyFloat c)
         | None => Raise NodeNotFound
         end.
Proof.
  apply (closeness_node_is_entry weighted_pair 2 (Some "weight") true).
  apply (bool_decide_unpack _). vm_compute. exact I.
Defined.

(** X17.  Without the [distance] argument the distances are counted
    towards the node.  On a well-formed graph, directed or not, the
    value of a node [n] is the closeness formula applied to a distance
    map [sp] that holds [d] under [t] exactly when [d] is the number of
    edges of a shortest walk from [t] to [n]: the inward distance of the
    docstring. *)
Theorem closeness_inward_distance G n wf_improved :
  Graph.wf G →
  n ∈ Graph.nodes G →
  ∃ sp : gmap node nat,
    closeness_centrality G (Some n) None wf_improved
    = Ok (PyFloat (closeness_value (Qnat <$> sp) (Graph.len G) wf_improved)) ∧
    ∀ t d, sp !! t = Some d ↔ hop_distance G t n d.
Proof.
  intros Hwf Hn. exists (bfs (closeness_view G) n). split.
  - by rewrite closeness_centrality_node.
  - intros t d. rewrite bfs_lookup_distance.
    + apply distance_view.
    + by apply closeness_view_wf.
    + by rewrite closeness_view_nodes.
Qed.

Lemma closeness_inward_distance_witness :
  ∃ sp : gmap node nat,
    closeness_centrality directed_pair (Some 2) None true
    = Ok (PyFloat (closeness_value (Qnat <$> sp) (Graph.len directed_pair) true)) ∧
    ∀ t d, sp !! t = Some d ↔ hop_distance directed_pair t 2 d.
Proof.
  apply (closeness_inward_distance directed_pair 2 true).
  - apply (bool_decide_unpack _). vm_compute. exact I.
  - by vm_compute.
Defined.
(** *** The order of the endpoints *)

Lemma unaffected_comm du dv n : unaffected du dv n = unaffected dv du n.
Proof.
  unfold unaffected. destruct (du !! n) as [a|], (dv !! n) as [b|]; try done.
  by rewrite Qabs_Qminus.
Qed.

Lemma has_edge_comm G a b :
  Graph.directed G = false → Graph.has_edge G a b = Graph.has_edge G b a.
Proof.
  intros Hd. unfold Graph.has_edge. apply bool_decide_ext.
  split; by apply edge_set_sym.
Qed.

(** The change with the endpoints in the other order gives a graph with
    the same nodes and the same edge set. *)
Lemma apply_change_swap G u v insertion G1 :
  Graph.wf G →
  Graph.directed G = false →
  apply_change G (u, v) insertion = Ok G1 →
  ∃ G2, apply_change G (v, u) insertion = Ok G2 ∧
        Graph.wf G1 ∧ Graph.wf G2 ∧
        Graph.nodes G1 = Graph.nodes G2 ∧
        Graph.edge_set G1 = Graph.edge_set G2.
Proof.
  intros Hwf Hd Hchange. unfold apply_change in *. simpl in *.
  destruct insertion.
  - injection Hchange as <-. eexists. split; [done|].
    split; [by apply add_edge_wf|]. split; [by apply add_edge_wf|]. split.
    + simpl. apply set_eq. intros x. set_solver.
    + apply set_eq. intros [x y]. rewrite !elem_of_edge_set_add_edge by done.
      tauto.
  - pose proof (remove_edge_has_edge G G1 u v Hchange) as Huv.
    rewrite has_edge_comm in Huv by done.
    destruct (remove_edge_Ok G v u Huv) as [G2 Hrm]. exists G2.
    split; [done|].
    split; [by apply (remove_edge_wf G G1 u v)|].
    split; [by apply (remove_edge_wf G G2 v u)|]. split.
    + by rewrite (remove_edge_nodes G G1 u v), (remove_edge_nodes G G2 v u).
    + apply set_eq. intros [x y].
      rewrite (elem_of_edge_set_remove_edge G G1 u v) by done.
      rewrite (elem_of_edge_set_remove_edge G G2 v u) by done.
      tauto.
Qed.

(** X18.  The order of the two endpoints of [edge] does not matter: on a
    well-formed graph the call with [(u, v)] and the call with [(v, u)]
    give the same outcome, the same dictionary or the same exception,
    for either kind of change and with or without a previous result. *)
Theorem incremental_endpoint_order G u v prev_cc insertion normalized :
  Graph.wf G →
  (incremental_closeness_centrality (u, v) prev_cc insertion normalized G).2
  = (incremental_closeness_centrality (v, u) prev_cc insertion normalized G).2.
Proof.
  intros Hwf.
  destruct (Graph.directed G) eqn:Hd.
  { by rewrite !incremental_directed. }
  assert ((∀ p, prev_cc = Some p → dom p = Graph.nodes G) ∨
          (∃ p, prev_cc = Some p ∧ dom p ≠ Graph.nodes G)) as [Hkeys|Hstale].
  { destruct prev_cc as [p|]; [|by left].
    destruct (decide (dom p = Graph.nodes G)) as [Hp|Hp].
    - left. by intros ? [= <-].
    - right. by exists p. }
  2:{ destruct Hstale as (p & -> & Hp). by rewrite !incremental_stale. }
  destruct (measure_and_apply u v insertion G) as [G1 [[du dv]|e]] eqn:Hm.
  2:{ rewrite (incremental_not_applied u v prev_cc insertion normalized G G1 e)
        by done.
      assert (measure_and_apply v u insertion G = (G, Raise e)) as Hm'.
      { destruct insertion.
        - destruct (decide (u ∈ Graph.nodes G)) as [Hu|Hu];
            [destruct (decide (v ∈ Graph.nodes G)) as [Hv|Hv]|].
          + by rewrite measure_insertion in Hm.
          + rewrite measure_insertion_missing in Hm by auto.
            injection Hm as _ <-. apply measure_insertion_missing. auto.
          + rewrite measure_insertion_missing in Hm by auto.
            injection Hm as _ <-. apply measure_insertion_missing. auto.
        - destruct (Graph.has_edge G u v) eqn:Huv.
          + destruct (remove_edge_Ok G u v Huv) as [G' Hrm].
            by rewrite (measure_deletion u v G G') in Hm.
          + rewrite measure_deletion_missing in Hm by done.
            injection Hm as _ <-. apply measure_deletion_missing.
            by rewrite has_edge_comm. }
      by rewrite (incremental_not_applied v u prev_cc insertion normalized G G e). }
  destruct (measure_and_apply_Ok _ _ _ _ _ _ _ Hm)
    as (Hchange & Hnodes1 & Hu & Hv & Hdu & Hdv).
  destruct (apply_change_swap G u v insertion G1 Hwf Hd Hchange)
    as (G2 & Hchange' & Hwf1 & Hwf2 & Hnodes & Hedges).
  assert (Hd1 : Graph.directed G1 = false).
  { unfold apply_change in Hchange. simpl in Hchange. destruct insertion.
    - by injection Hchange as <-.
    - by rewrite (remove_edge_directed G G1 u v). }
  assert (Hbfs : ∀ n, n ∈ Graph.nodes G → bfs G1 n = bfs G2 n).
  { intros n Hn. apply bfs_edge_set_ext; try done; by rewrite <-?Hnodes, Hnodes1. }
  assert (Hlen : Graph.len G1 = Graph.len G2)
    by (unfold Graph.len; by rewrite Hnodes).
  assert (Hm' : measure_and_apply v u insertion G = (G2, Ok (dv, du))).
  { unfold apply_change in Hchange'. simpl in Hchange'. destruct insertion.
    - injection Hchange' as <-. subst du dv. by apply measure_insertion.
    - rewrite (measure_deletion v u G G2) by done.
      subst du dv. by rewrite !Hbfs. }
  destruct prev_cc as [p|].
  - specialize (Hkeys p eq_refl).
    destruct (incremental_accepted G u v p insertion normalized G1)
      as (X1 & du1 & dv1 & -> & Hm1 & _); try done.
    destruct (incremental_accepted G v u p insertion normalized G2)
      as (X2 & du2 & dv2 & -> & Hm2 & _); try done.
    rewrite Hm in Hm1. injection Hm1 as <- <-.
    rewrite Hm' in Hm2. injection Hm2 as <- <-.
    simpl. do 2 f_equal. apply fill_ext. intros n Hn.
    unfold incremental_value. rewrite (unaffected_comm dv du).
    by rewrite Hbfs, Hlen.
  - rewrite (incremental_no_prev u v insertion normalized G G1 du dv) by done.
    rewrite (incremental_no_prev v u insertion normalized G G2 dv du) by done.
    simpl. rewrite !closeness_centrality_dict.
    assert (Hd2 : Graph.directed G2 = false).
    { unfold apply_change in Hchange'. simpl in Hchange'. destruct insertion.
      - by injection Hchange' as <-.
      - by rewrite (remove_edge_directed G G2 v u). }
    rewrite !closeness_view_undirected by done.
    rewrite <-Hnodes, <-Hlen. do 2 f_equal. apply fill_ext. intros n Hn.
    simpl. rewrite Hbfs; [done|]. by rewrite <-Hnodes1.
Qed.

Lemma incremental_endpoint_order_witness :
  (incremental_closeness_centrality (1, 3) (Some zeros_3) true true path_graph_3).2
  = (incremental_closeness_centrality (3, 1) (Some zeros_3) true true path_graph_3).2.
Proof.
  apply (incremental_endpoint_order path_graph_3 1 3 (Some zeros_3) true true).
  apply (bool_decide_unpack _). vm_compute. exact I.
Defined.
